(** * libpdx_uds: ClientChannelFactory

    A shallow embedding of [libs/vr/libpdx_uds/client_channel_factory.cpp]:
    the endpoint path resolver ([GetEndpointPath]), the copy of the path into
    [sockaddr_un::sun_path], and [ClientChannelFactory::Connect], modelled as
    a function from a scripted operating-system environment to the trace of
    calls it performs and the way it returns. *)

From Stdlib Require Import Ascii String.
From stdpp Require Import base numbers list strings.

(** ** Endpoint path resolver (lines 23-37) *)

Module Resolver.

Definition GetRootEndpointPath : string := "/dev/socket/pdx".

(** [path] starts empty; it is assigned only when [endpoint_path] is not
    empty, by the test on [endpoint_path.front()]. *)
Definition GetEndpointPath (endpoint_path : string) : string :=
  match endpoint_path with
  | EmptyString => ""
  | String front _ =>
      if Ascii.eqb front "/"%char
      then endpoint_path
      else (GetRootEndpointPath +:+ String "/"%char "") +:+ endpoint_path
  end.

End Resolver.

(** ** The copy into [remote.sun_path] (lines 58-61) *)

Module SunPath.

Definition NUL : ascii := Ascii.zero.

(** [endpoint_path_.c_str()]: the characters of the string followed by the
    terminator. *)
Definition c_str (s : string) : list ascii := list_ascii_of_string s ++ [NUL].

(** [dest[i] = c] on an array of [length dest] bytes.  [None] is a store
    outside the array. *)
Definition store (dest : list ascii) (i : nat) (c : ascii) : option (list ascii) :=
  if decide (i < length dest) then Some (<[i:=c]> dest) else None.

(** [strncpy] of <string.h>:
    [for (i = 0; i < n && src[i] != 0; i++) dest[i] = src[i];
     for (; i < n; i++) dest[i] = 0;]
    [k] counts the [n - i] bytes still to write.  A load [src !! i] that
    yields [None] is a read past the source array. *)
Fixpoint strncpy_pad (k i : nat) (dest : list ascii) : option (list ascii) :=
  match k with
  | O => Some dest
  | S k' => dest' ← store dest i NUL; strncpy_pad k' (S i) dest'
  end.

Fixpoint strncpy_copy (k i : nat) (dest src : list ascii) : option (list ascii) :=
  match k with
  | O => Some dest
  | S k' =>
      c ← src !! i;
      if decide (c = NUL) then strncpy_pad k i dest
      else dest' ← store dest i c; strncpy_copy k' (S i) dest' src
  end.

Definition strncpy (dest src : list ascii) (n : nat) : option (list ascii) :=
  strncpy_copy n 0 dest src.

(** Lines 60-61.  [remote0] is the array [remote.sun_path] as declared on
    line 58, with whatever bytes the stack holds; [sizeof(remote.sun_path)]
    is its length. *)
Definition fill_sun_path (remote0 : list ascii) (endpoint_path_ : string)
  : option (list ascii) :=
  let size := length remote0 in
  sun_path ← strncpy remote0 (c_str endpoint_path_) size;
  store sun_path (size - 1) NUL.

(** What a reader of [sun_path] as a C string sees: the bytes before the
    first terminator. *)
Fixpoint c_string (bytes : list ascii) : list ascii :=
  match bytes with
  | [] => []
  | c :: rest => if decide (c = NUL) then [] else c :: c_string rest
  end.

(** The [k] bytes [strncpy] leaves in the destination: the source up to its
    terminator, padded with terminators, cut at [k]. *)
Definition copied (k : nat) (src : list ascii) : list ascii :=
  take k (c_string src ++ replicate k NUL).

End SunPath.

(** ** [ClientChannelFactory::Connect] (lines 48-133) *)

Module Connector.

Import SunPath.
Local Open Scope Z_scope.

(** Error numbers of <errno.h> (Linux values). *)
Definition ENOENT : Z := 2.
Definition EINTR : Z := 4.
Definition EIO : Z := 5.
Definition EACCES : Z := 13.
Definition ENOTDIR : Z := 20.
Definition ETIMEDOUT : Z := 110.
Definition ECONNREFUSED : Z := 111.

(** [Status<T>]: a value, or an error number. *)
Inductive Status (T : Type) : Type :=
  | Ok (value : T)
  | ErrorStatus (error : Z).
Arguments Ok {T} value.
Arguments ErrorStatus {T} error.

(** An [int]-returning system call: [0], or [-1] with [errno] set. *)
Inductive sysret : Type :=
  | SysOk
  | SysErr (errno : Z).

(** Modelled from the spec: [LocalHandle] (pdx/file_handle.h), a move-only
    owner of one descriptor with guaranteed release on every exit path.  It
    holds a descriptor number, is valid when that number is not negative,
    closes a valid descriptor when it is destroyed, and is left empty when
    it is moved from. *)
Definition LocalHandle : Type := Z.
Definition kEmptyFileHandle : LocalHandle := -1.
Definition IsValid (h : LocalHandle) : bool := 0 <=? h.
Definition move_from (h : LocalHandle) : LocalHandle * LocalHandle :=
  (h, kEmptyFileHandle).

Inductive opcode : Type := CHANNEL_OPEN.

Record RequestHeader : Type := {
  op : opcode;
  send_len : Z;
  max_recv_len : Z;
  is_impulse : bool;
}.

Definition InitRequest (o : opcode) (send recv : Z) (impulse : bool)
  : RequestHeader :=
  {| op := o; send_len := send; max_recv_len := recv; is_impulse := impulse |}.

Record ResponseHeader : Type := {
  ret_code : Z;
  file_descriptors : list LocalHandle;
}.

(** The calls [Connect] makes on its collaborators, in program order. *)
Inductive event : Type :=
  | EvSocket (ret : Z)
  | EvWaitForEndpoint (path : string) (timeout : Z)
  | EvConnect (fd : Z) (sun_path : list ascii) (ret : sysret)
  | EvSleep (ms : Z)
  | EvSendData (fd : Z) (request : RequestHeader)
  | EvReceiveData (fd : Z)
  | EvCreateHandle (data_fd event_fd : LocalHandle)
  | EvClose (fd : Z).

(** The destructor of a [LocalHandle], and of a vector of them. *)
Definition destroy (h : LocalHandle) : list event :=
  if IsValid h then [EvClose h] else [].

Definition destroy_all (hs : list LocalHandle) : list event :=
  flat_map destroy hs.

(** The return statements of [Connect], named as in the error taxonomy of
    the specification.  The caller sees only the error number. *)
Inductive ErrorKind : Type :=
  | ResourceError   (* line 55 *)
  | Timeout         (* line 75 *)
  | WaitError       (* line 80 *)
  | ConnectError    (* line 106 *)
  | IOError         (* lines 121 and 125 *)
  | ProtocolError.  (* line 128 *)

Inductive outcome : Type :=
  | Success (data_fd event_fd : LocalHandle)   (* line 131 *)
  | Failure (kind : ErrorKind) (error : Z)     (* return ErrorStatus(error) *)
  | Undefined            (* an access outside an array, a signed overflow *)
  | Running.                                   (* the script ended first *)

(** What the caller of [Connect] receives. *)
Definition returned (o : outcome) : option (Status (LocalHandle * LocalHandle)) :=
  match o with
  | Success d e => Some (Ok (d, e))
  | Failure _ error => Some (ErrorStatus error)
  | Undefined | Running => None
  end.

(** What the operating system and the peer answer during one pass through
    the loop body. *)
Record iteration : Type := {
  wait_status : Status unit;     (* WaitForEndpoint, line 78 *)
  connect_rets : list sysret;    (* the successive connect() calls, line 83 *)
  clock_after : Z;               (* steady_clock::now(), line 112 *)
}.

Record environment : Type := {
  socket_ret : Z;                (* socket(), line 52 *)
  socket_errno : Z;
  remote_stack : list ascii;     (* remote.sun_path as declared, line 58 *)
  clock_start : Z;               (* steady_clock::now(), line 64 *)
  iterations : list iteration;
  send_status : Status unit;     (* SendData, line 119 *)
  recv_status : Status unit;     (* ReceiveData, line 123 *)
  recv_response : ResponseHeader;
}.

(** Modelled from the spec: [RETRY_EINTR] (a macro of the library, not in
    this file) repeats the call while it is interrupted by a signal, without
    counting it as an attempt.  [None]: the script has no further answer. *)
Fixpoint RETRY_EINTR (fd : Z) (remote : list ascii) (rets : list sysret)
  : list event * option sysret :=
  match rets with
  | [] => ([], None)
  | ret :: rets' =>
      match ret with
      | SysErr errno =>
          if errno =? EINTR
          then let '(evs, res) := RETRY_EINTR fd remote rets' in
               (EvConnect fd remote ret :: evs, res)
          else ([EvConnect fd remote ret], Some ret)
      | SysOk => ([EvConnect fd remote ret], Some ret)
      end
  end.

(** [int max_eaccess]: post-decrement in 32-bit two's complement. *)
Definition wrap_int (z : Z) : Z := (z + 2^31) mod 2^32 - 2^31.

(** [static_cast<size_t>] on a 64-bit platform. *)
Definition to_size_t (z : Z) : Z := z mod 2^64.

(** [int64_t], the count of a [steady_clock] time point or duration.  An
    addition, subtraction or multiplication of counts whose result does not
    fit is a signed overflow, which C++ leaves undefined: [None]. *)
Definition in_int64 (z : Z) : bool := (- 2^63 <=? z) && (z <? 2^63).

Definition int64 (z : Z) : option Z := if in_int64 z then Some z else None.

Inductive loop_exit : Type :=
  | Continue (now max_eaccess : Z)
  | Connected
  | Return (o : outcome)
  | Stalled.

Section Connect.

(** Ticks of [steady_clock] per millisecond ([std::nano] period: 1000000).
    Time points and durations are [int64_t] counts of ticks. *)
Variable ticks_per_ms : Z.

(** [duration_cast<std::chrono::milliseconds>(d).count()]: integer division,
    rounding toward zero. *)
Definition duration_cast_ms (d : Z) : Z := Z.quot d ticks_per_ms.

(** Line 65, [now + std::chrono::milliseconds{timeout_ms}]: the milliseconds
    are converted to ticks, which are then added to the time point, both in
    [int64_t]. *)
Definition deadline (now timeout_ms : Z) : option Z :=
  ticks ← int64 (timeout_ms * ticks_per_ms);
  int64 (now + ticks).

(** Lines 70-76.  [None]: the loop is left here, the way [deadline_exit]
    says. *)
Definition remaining_timeout (use_timeout : bool) (time_end now : Z) : option Z :=
  if use_timeout then
    remaining ← int64 (time_end - now);
    let timeout := duration_cast_ms remaining in
    if timeout <? 0 then None else Some timeout
  else Some (-1).

(** The return on line 75, unless the subtraction on line 72 overflowed. *)
Definition deadline_exit (time_end now : Z) : outcome :=
  if in_int64 (time_end - now)
  then Failure Timeout ETIMEDOUT
  else Undefined.

Variable endpoint_path_ : string.
Variable remote : list ascii.
Variable socket_fd : LocalHandle.
Variable use_timeout : bool.

(** Lines 77-112: the loop body after the deadline check. *)
Definition attempt (timeout now max_eaccess : Z) (it : iteration)
  : list event * loop_exit :=
  let ev_wait := EvWaitForEndpoint endpoint_path_ timeout in
  match wait_status it with
  | ErrorStatus error => ([ev_wait], Return (Failure WaitError error))
  | Ok _ =>
      let '(ev_connect, ret) := RETRY_EINTR socket_fd remote (connect_rets it) in
      let now' := if use_timeout then clock_after it else now in
      match ret with
      | None => (ev_wait :: ev_connect, Stalled)
      | Some SysOk => (ev_wait :: ev_connect, Connected)
      | Some (SysErr errno) =>
          (* errno == ECONNREFUSED || (errno == EACCES && max_eaccess-- > 0) *)
          let '(retry, max_eaccess') :=
            if errno =? ECONNREFUSED then (true, max_eaccess)
            else if errno =? EACCES
                 then (0 <? max_eaccess, wrap_int (max_eaccess - 1))
                 else (false, max_eaccess) in
          if retry then
            (ev_wait :: ev_connect ++ [EvSleep 100], Continue now' max_eaccess')
          else if negb (errno =? ENOENT) && negb (errno =? ENOTDIR) then
            (ev_wait :: ev_connect, Return (Failure ConnectError errno))
          else
            (ev_wait :: ev_connect, Continue now' max_eaccess')
      end
  end.

Variable time_end : Z.

(** Lines 69-113: [while (!connected)], one scripted iteration per pass. *)
Fixpoint connect_loop (now max_eaccess : Z) (its : list iteration)
  : list event * loop_exit :=
  match remaining_timeout use_timeout time_end now with
  | None => ([], Return (deadline_exit time_end now))
  | Some timeout =>
      match its with
      | [] => ([], Stalled)
      | it :: its' =>
          let '(evs, ex) := attempt timeout now max_eaccess it in
          match ex with
          | Continue now' max_eaccess' =>
              let '(evs', ex') := connect_loop now' max_eaccess' its' in
              (evs ++ evs', ex')
          | _ => (evs, ex)
          end
      end
  end.

End Connect.

(** Lines 117-132: the handshake on the connected socket. *)
Definition handshake (socket_fd : LocalHandle) (env : environment)
  : list event * outcome :=
  let request := InitRequest CHANNEL_OPEN 0 0 false in
  let ev_send := EvSendData socket_fd request in
  match send_status env with
  | ErrorStatus error => (ev_send :: destroy socket_fd, Failure IOError error)
  | Ok _ =>
      let response := recv_response env in
      let ev_recv := EvReceiveData socket_fd in
      match recv_status env with
      | ErrorStatus error =>
          (ev_send :: ev_recv ::
             destroy_all (file_descriptors response) ++ destroy socket_fd,
           Failure IOError error)
      | Ok _ =>
          let ref := ret_code response in
          let size := Z.of_nat (length (file_descriptors response)) in
          if (ref <? 0) || (size <? to_size_t ref) then
            (ev_send :: ev_recv ::
               destroy_all (file_descriptors response) ++ destroy socket_fd,
             Failure ProtocolError EIO)
          else
            match file_descriptors response !! Z.to_nat ref with
            | None => ([ev_send; ev_recv], Undefined)
            | Some slot =>
                (* line 130: the slot is moved into the local event_fd *)
                let '(event_fd, slot') := move_from slot in
                let fds' := <[Z.to_nat ref := slot']> (file_descriptors response) in
                (* line 132: both locals are moved into CreateHandle *)
                let '(data_arg, socket_fd') := move_from socket_fd in
                let '(event_arg, event_fd') := move_from event_fd in
                (ev_send :: ev_recv :: EvCreateHandle data_arg event_arg ::
                   destroy event_fd' ++ destroy_all fds' ++ destroy socket_fd',
                 Success data_arg event_arg)
            end
      end
  end.

(** Lines 48-133.  A trace ends where the behaviour becomes undefined: at
    a store outside [sun_path], at a signed overflow in the arithmetic of
    the deadline (line 65, whether or not there is a deadline to check, and
    line 72), or at the access on line 130. *)
Definition Connect (ticks_per_ms : Z) (endpoint_path_ : string)
    (timeout_ms : Z) (env : environment) : list event * outcome :=
  let socket_fd := socket_ret env in
  let ev_socket := EvSocket socket_fd in
  if negb (IsValid socket_fd) then
    ([ev_socket], Failure ResourceError (socket_errno env))
  else
    match fill_sun_path (remote_stack env) endpoint_path_ with
    | None => ([ev_socket], Undefined)
    | Some remote =>
        let use_timeout := 0 <=? timeout_ms in
        let now := clock_start env in
        match deadline ticks_per_ms now timeout_ms with
        | None => ([ev_socket], Undefined)
        | Some time_end =>
            let max_eaccess := 5 in
            let '(evs, ex) :=
              connect_loop ticks_per_ms endpoint_path_ remote socket_fd
                use_timeout time_end now max_eaccess (iterations env) in
            match ex with
            | Return Undefined => (ev_socket :: evs, Undefined)
            | Return o => (ev_socket :: evs ++ destroy socket_fd, o)
            | Connected =>
                let '(evs', o) := handshake socket_fd env in
                (ev_socket :: evs ++ evs', o)
            | Continue _ _ | Stalled => (ev_socket :: evs, Running)
            end
        end
    end.

End Connector.

(** ** Observations on traces *)

Module Trace.

Import Connector.
Local Open Scope Z_scope.

(** A [connect()] call that failed with [EACCES]. *)
Definition is_eacces_connect (e : event) : bool :=
  match e with
  | EvConnect _ _ (SysErr errno) => errno =? EACCES
  | _ => false
  end.

Definition count_eacces (tr : list event) : nat :=
  length (List.filter is_eacces_connect tr).

(** The events the loop of [Connect] can emit. *)
Definition loop_event (path : string) (remote : list ascii) (fd : Z)
    (e : event) : Prop :=
  match e with
  | EvWaitForEndpoint p _ => p = path
  | EvConnect f a _ => f = fd ∧ a = remote
  | EvSleep ms => ms = 100
  | _ => False
  end.

(** The descriptors closed, and the descriptors given to the registry, in
    the order of the trace. *)
Definition closed (tr : list event) : list Z :=
  flat_map (λ e, match e with EvClose fd => [fd] | _ => [] end) tr.

Definition handed (tr : list event) : list Z :=
  flat_map (λ e, match e with EvCreateHandle d v => [d; v] | _ => [] end) tr.

Definition times (fd : Z) (fds : list Z) : nat :=
  length (List.filter (Z.eqb fd) fds).

(** The retry policy for [EACCES], read off a trace: with budget left, an
    [EACCES] is followed by the 100 ms sleep, after which the trace goes on
    as [resumes] says, and charges the budget; with no budget left, what
    follows it satisfies [terminal]. *)
Fixpoint eacces_policy (resumes terminal : list event → Prop) (budget : nat)
    (tr : list event) : Prop :=
  match tr with
  | [] => True
  | e :: tr' =>
      if is_eacces_connect e then
        match budget with
        | O => terminal tr'
        | S budget' =>
            (∃ post, tr' = EvSleep 100 :: post ∧ resumes post) ∧
            eacces_policy resumes terminal budget' tr'
        end
      else eacces_policy resumes terminal budget tr'
  end.

(** A trace that begins with an endpoint wait: the loop body was entered. *)
Definition next_pass (path : string) (tr : list event) : Prop :=
  ∃ timeout tr', tr = EvWaitForEndpoint path timeout :: tr'.

(** How the loop goes on from the top: into the next pass, or out at the
    deadline check, or the script has ended. *)
Definition loop_resumes (path : string) (ex : loop_exit) (tr : list event)
  : Prop :=
  next_pass path tr ∨
  (tr = [] ∧
   (ex = Return (Failure Timeout ETIMEDOUT) ∨ ex = Return Undefined ∨
    ex = Stalled)).

(** The same seen from the caller of [Connect]: the next pass; or the
    return on line 75, at which the socket is closed; or nothing, where the
    script ended or the subtraction on line 72 overflowed. *)
Definition resumes (path : string) (fd : Z) (out : outcome) (tr : list event)
  : Prop :=
  next_pass path tr ∨
  (tr = [EvClose fd] ∧ out = Failure Timeout ETIMEDOUT) ∨
  (tr = [] ∧ (out = Undefined ∨ out = Running)).

(** Calls made inside the loop, as opposed to the handshake and the
    destructors. *)
Definition is_loop_call (e : event) : bool :=
  match e with
  | EvWaitForEndpoint _ _ | EvConnect _ _ _ | EvSleep _ => true
  | _ => false
  end.

Definition is_receive (e : event) : bool :=
  match e with EvReceiveData _ => true | _ => false end.

(** [P] holds of the timeout of [e] if [e] is an endpoint wait. *)
Definition wait_timeout_is (P : Z → Prop) (e : event) : Prop :=
  match e with
  | EvWaitForEndpoint _ timeout => P timeout
  | _ => True
  end.

(** The timeouts of the endpoint waits of a trace, in order. *)
Definition wait_timeouts (tr : list event) : list Z :=
  flat_map (λ e, match e with EvWaitForEndpoint _ t => [t] | _ => [] end) tr.

(** The three calls of a pass in which [connect()] is refused. *)
Definition refused_pass (path : string) (remote : list ascii) (fd timeout : Z)
  : list event :=
  [EvWaitForEndpoint path timeout;
   EvConnect fd remote (SysErr ECONNREFUSED);
   EvSleep 100].

(** The descriptors a call came to own: its socket and, once [ReceiveData]
    has been called, the valid descriptors the response carries. *)
Definition owned (env : environment) (tr : list event) : list Z :=
  socket_ret env ::
  if existsb is_receive tr
  then List.filter IsValid (file_descriptors (recv_response env))
  else [].

(** The descriptors a call let go of: closed, or given to the registry. *)
Definition released (tr : list event) : list Z :=
  closed tr ++ List.filter IsValid (handed tr).

(** A collaborator of the call answered with the error number [error]. *)
Definition reports (env : environment) (error : Z) : Prop :=
  (IsValid (socket_ret env) = false ∧ socket_errno env = error) ∨
  (∃ it, it ∈ iterations env ∧
         (wait_status it = ErrorStatus error ∨
          SysErr error ∈ connect_rets it)) ∨
  send_status env = ErrorStatus error ∨
  recv_status env = ErrorStatus error.

Section Shapes.

Variable endpoint_path_ : string.
Variable remote : list ascii.
Variable socket_fd : LocalHandle.
Variable use_timeout : bool.

(** [connect()] calls cut short by a signal. *)
Definition interrupted (evs : list event) : Prop :=
  Forall (λ e, e = EvConnect socket_fd remote (SysErr EINTR)) evs.

(** The shapes one pass of the loop body can take: the events of
    [Connector.attempt] and the way it leaves. *)
Inductive attempt_shape (timeout now max_eaccess : Z) (it : iteration)
  : list event → loop_exit → Prop :=
  | shape_wait_error error :
      wait_status it = ErrorStatus error →
      attempt_shape timeout now max_eaccess it
        [EvWaitForEndpoint endpoint_path_ timeout]
        (Return (Failure WaitError error))
  | shape_stalled l :
      interrupted l →
      attempt_shape timeout now max_eaccess it
        (EvWaitForEndpoint endpoint_path_ timeout :: l) Stalled
  | shape_connected l :
      interrupted l →
      attempt_shape timeout now max_eaccess it
        (EvWaitForEndpoint endpoint_path_ timeout :: l ++
           [EvConnect socket_fd remote SysOk]) Connected
  | shape_refused l :
      interrupted l →
      attempt_shape timeout now max_eaccess it
        (EvWaitForEndpoint endpoint_path_ timeout :: l ++
           [EvConnect socket_fd remote (SysErr ECONNREFUSED); EvSleep 100])
        (Continue (if use_timeout then clock_after it else now) max_eaccess)
  | shape_denied_retry l :
      interrupted l →
      0 < max_eaccess →
      attempt_shape timeout now max_eaccess it
        (EvWaitForEndpoint endpoint_path_ timeout :: l ++
           [EvConnect socket_fd remote (SysErr EACCES); EvSleep 100])
        (Continue (if use_timeout then clock_after it else now)
           (wrap_int (max_eaccess - 1)))
  | shape_denied_fatal l :
      interrupted l →
      max_eaccess ≤ 0 →
      SysErr EACCES ∈ connect_rets it →
      attempt_shape timeout now max_eaccess it
        (EvWaitForEndpoint endpoint_path_ timeout :: l ++
           [EvConnect socket_fd remote (SysErr EACCES)])
        (Return (Failure ConnectError EACCES))
  | shape_missing l errno :
      interrupted l →
      errno = ENOENT ∨ errno = ENOTDIR →
      attempt_shape timeout now max_eaccess it
        (EvWaitForEndpoint endpoint_path_ timeout :: l ++
           [EvConnect socket_fd remote (SysErr errno)])
        (Continue (if use_timeout then clock_after it else now) max_eaccess)
  | shape_fatal l errno :
      interrupted l →
      errno ≠ ECONNREFUSED → errno ≠ EACCES →
      errno ≠ ENOENT → errno ≠ ENOTDIR →
      SysErr errno ∈ connect_rets it →
      attempt_shape timeout now max_eaccess it
        (EvWaitForEndpoint endpoint_path_ timeout :: l ++
           [EvConnect socket_fd remote (SysErr errno)])
        (Return (Failure ConnectError errno)).

End Shapes.

(** How a call goes on from the exit of its loop: what is still emitted,
    and the outcome. *)
Definition run_exit (env : environment) (ex : loop_exit) (tail : list event)
    (out : outcome) : Prop :=
  match ex with
  | Return Undefined => tail = [] ∧ out = Undefined
  | Return o => tail = [EvClose (socket_ret env)] ∧ out = o
  | Connected =>
      tail = (handshake (socket_ret env) env).1 ∧
      out = (handshake (socket_ret env) env).2
  | Continue _ _ | Stalled => tail = [] ∧ out = Running
  end.

(** The ways a call of [Connect] can run. *)
Inductive Connect_run (ticks_per_ms : Z) (path : string) (timeout_ms : Z)
    (env : environment) : list event → outcome → Prop :=
  | run_no_socket :
      IsValid (socket_ret env) = false →
      Connect_run ticks_per_ms path timeout_ms env
        [EvSocket (socket_ret env)]
        (Failure ResourceError (socket_errno env))
  | run_fault :
      IsValid (socket_ret env) = true →
      SunPath.fill_sun_path (remote_stack env) path = None ∨
        deadline ticks_per_ms (clock_start env) timeout_ms = None →
      Connect_run ticks_per_ms path timeout_ms env
        [EvSocket (socket_ret env)] Undefined
  | run_loop remote time_end evs ex tail out :
      IsValid (socket_ret env) = true →
      SunPath.fill_sun_path (remote_stack env) path = Some remote →
      deadline ticks_per_ms (clock_start env) timeout_ms = Some time_end →
      connect_loop ticks_per_ms path remote (socket_ret env)
        (0 <=? timeout_ms) time_end (clock_start env) 5 (iterations env) =
        (evs, ex) →
      run_exit env ex tail out →
      Connect_run ticks_per_ms path timeout_ms env
        (EvSocket (socket_ret env) :: evs ++ tail) out.

End Trace.

(** ** Scripted environments *)

Module Scenario.

Import Connector.
Local Open Scope Z_scope.

(** One pass of the loop in which the endpoint exists and [connect()]
    answers [ret]; the clock then reads [clock]. *)
Definition answers (ret : sysret) (clock : Z) : iteration :=
  {| wait_status := Ok (); connect_rets := [ret]; clock_after := clock |}.

(** Socket 3 is created; [remote.sun_path] has the 108 bytes of Linux. *)
Definition script (its : list iteration) (send recv : Status unit)
    (response : ResponseHeader) : environment :=
  {| socket_ret := 3; socket_errno := 0;
     remote_stack := replicate 108 "U"%char;
     clock_start := 0;
     iterations := its;
     send_status := send; recv_status := recv;
     recv_response := response |}.

Definition one_descriptor : ResponseHeader :=
  {| ret_code := 0; file_descriptors := [4] |}.

(** The peer accepts at once and transfers one descriptor. *)
Definition accepting : environment :=
  script [answers SysOk 1000000] (Ok ()) (Ok ()) one_descriptor.

(** The peer's return code equals the number of descriptors it sent. *)
Definition index_at_size : environment :=
  script [answers SysOk 1000000] (Ok ()) (Ok ())
    {| ret_code := 1; file_descriptors := [4] |}.

Definition negative_index : environment :=
  script [answers SysOk 1000000] (Ok ()) (Ok ())
    {| ret_code := -1; file_descriptors := [4] |}.

Definition receive_eio : environment :=
  script [answers SysOk 1000000] (Ok ()) (ErrorStatus EIO)
    {| ret_code := 0; file_descriptors := [] |}.


(** [connect()] answers [EACCES] seven times in a row. *)
Definition denying : environment :=
  script (replicate 7 (answers (SysErr EACCES) 0)) (Ok ()) (Ok ())
    one_descriptor.



(** An absolute path of 120 characters. *)
Definition long_path : string :=
  String "/"%char (string_of_list_ascii (replicate 119 "a"%char)).

End Scenario.

(** ** The factory (lines 39-46) *)

Module Factory.

(** The one data member of [ClientChannelFactory]. *)
Record ClientChannelFactory : Type := {
  endpoint_path_ : string;
}.

(** Lines 39-40: the constructor resolves the name once. *)
Definition construct (endpoint_path : string) : ClientChannelFactory :=
  {| endpoint_path_ := Resolver.GetEndpointPath endpoint_path |}.

(** Lines 42-46: [Create] wraps a new factory in a [unique_ptr]. *)
Definition Create (endpoint_path : string) : ClientChannelFactory :=
  construct endpoint_path.

(** [Connect] as the member function it is: on the factory's path. *)
Definition Connect (ticks_per_ms : Z) (self : ClientChannelFactory)
    (timeout_ms : Z) (env : Connector.environment)
  : list Connector.event * Connector.outcome :=
  Connector.Connect ticks_per_ms (endpoint_path_ self) timeout_ms env.

End Factory.

(** ** Further observations on traces and scripts *)

Module Observe.

Import Connector.
Local Open Scope Z_scope.

Definition is_socket (e : event) : bool :=
  match e with EvSocket _ => true | _ => false end.

Definition is_sleep (e : event) : bool :=
  match e with EvSleep _ => true | _ => false end.

Definition is_send (e : event) : bool :=
  match e with EvSendData _ _ => true | _ => false end.

(** A [connect()] call that failed with [ECONNREFUSED]. *)
Definition is_refused_connect (e : event) : bool :=
  match e with
  | EvConnect _ _ (SysErr errno) => errno =? ECONNREFUSED
  | _ => false
  end.

Definition count (p : event → bool) (tr : list event) : nat :=
  length (List.filter p tr).

(** The error numbers of [connect()] after which the loop goes on, or the
    call is repeated. *)
Definition retried_errno (errno : Z) : bool :=
  (errno =? EINTR) || (errno =? ECONNREFUSED) || (errno =? EACCES) ||
  (errno =? ENOENT) || (errno =? ENOTDIR).

(** The descriptor a call is made on; closes are left out, since received
    descriptors are closed too. *)
Definition fd_of (e : event) : option Z :=
  match e with
  | EvSocket ret => Some ret
  | EvConnect fd _ _ => Some fd
  | EvSendData fd _ => Some fd
  | EvReceiveData fd => Some fd
  | EvCreateHandle data_fd _ => Some data_fd
  | EvWaitForEndpoint _ _ | EvSleep _ | EvClose _ => None
  end.

(** The answer of [connect()] that [RETRY_EINTR] hands on: the first that is
    not an interruption. *)
Fixpoint decided (rets : list sysret) : option sysret :=
  match rets with
  | [] => None
  | SysErr errno :: rets' =>
      if errno =? EINTR then decided rets' else Some (SysErr errno)
  | SysOk :: _ => Some SysOk
  end.

(** A scripted pass in which the loop may sleep: the endpoint is there and
    [connect()] is refused or denied. *)
Definition may_sleep (it : iteration) : bool :=
  match wait_status it with
  | Ok _ =>
      match decided (connect_rets it) with
      | Some (SysErr errno) => (errno =? ECONNREFUSED) || (errno =? EACCES)
      | _ => false
      end
  | ErrorStatus _ => false
  end.

(** A script whose clock is steady: it never goes back, and a pass in which
    the loop may sleep takes at least the 100 ms of the sleep. *)
Fixpoint steady (ticks_per_ms now : Z) (its : list iteration) : Prop :=
  match its with
  | [] => True
  | it :: its' =>
      now + (if may_sleep it then 100 * ticks_per_ms else 0) ≤ clock_after it ∧
      steady ticks_per_ms (clock_after it) its'
  end.

(** The arithmetic of the deadline stays inside [int64_t]: the deadline of
    line 65 fits and, where there is a deadline to check, so does every
    subtraction on line 72. *)
Definition arithmetic_fits (ticks_per_ms timeout_ms : Z) (env : environment)
  : bool :=
  match deadline ticks_per_ms (clock_start env) timeout_ms with
  | None => false
  | Some time_end =>
      (timeout_ms <? 0) ||
      forallb (λ it, in_int64 (time_end - clock_after it)) (iterations env)
  end.

(** The rule for the other error numbers of [connect()], read off a trace:
    what follows a [connect()] that failed with an error number that is not
    retried satisfies [terminal]. *)
Fixpoint fatal_policy (terminal : Z → list event → Prop) (tr : list event)
  : Prop :=
  match tr with
  | [] => True
  | e :: tr' =>
      match e with
      | EvConnect _ _ (SysErr errno) =>
          retried_errno errno = false → terminal errno tr'
      | _ => True
      end ∧
      fatal_policy terminal tr'
  end.

(** Scripts for the examples below. *)
Definition refused_then_accepted : environment :=
  Scenario.script
    [Scenario.answers (SysErr ECONNREFUSED) 100000000;
     Scenario.answers SysOk 101000000]
    (Ok ()) (Ok ()) Scenario.one_descriptor.

Definition unreachable : environment :=
  Scenario.script [Scenario.answers (SysErr 113) 1000000]
    (Ok ()) (Ok ()) Scenario.one_descriptor.

End Observe.

(** * Properties *)

Import Resolver SunPath Connector Trace Scenario.

(** ** The resolver *)

Section ResolverFacts.

(** C7.  Path resolution: the empty name resolves to the empty path; a name
    that begins with the separator ['/'] is returned verbatim; every other
    name is returned as the root path, the separator, and the name.  The
    three cases cover every name, so nothing else is checked. *)
Theorem GetEndpointPath_cases (name : string) :
  (name = "" → GetEndpointPath name = "") ∧
  (∀ rest, name = String "/" rest → GetEndpointPath name = name) ∧
  (∀ c rest, name = String c rest → c ≠ "/"%char →
     GetEndpointPath name = GetRootEndpointPath +:+ "/" +:+ name).
Proof.
  split; [|split].
  - intros ->. reflexivity.
  - intros rest ->. reflexivity.
  - intros c rest -> Hc. unfold GetEndpointPath.
    destruct (Ascii.eqb_spec c "/") as [->|_]; [done|]. reflexivity.
Qed.

Lemma GetEndpointPath_cases_witness :
  GetEndpointPath "" = "" ∧
  GetEndpointPath "/abs/p" = "/abs/p" ∧
  GetEndpointPath "foo" = "/dev/socket/pdx/foo".
Proof.
  split; [|split].
  - apply (proj1 (GetEndpointPath_cases "")). reflexivity.
  - apply (proj1 (proj2 (GetEndpointPath_cases "/abs/p")) "abs/p"). reflexivity.
  - apply (proj2 (proj2 (GetEndpointPath_cases "foo")) "f"%char "oo");
      [reflexivity | discriminate].
Defined.

(** C10.  The resolved path is empty exactly when the name is empty, and a
    resolved path that is not empty begins with ['/']: it is either the
    absolute name itself or the name under the root ["/dev/socket/pdx"]. *)
Theorem GetEndpointPath_absolute (name : string) :
  (GetEndpointPath name = "" ↔ name = "") ∧
  (∀ c rest, GetEndpointPath name = String c rest → c = "/"%char) ∧
  (GetEndpointPath name = name ∨
   GetEndpointPath name = "/dev/socket/pdx/" +:+ name).
Proof.
  split; [|split].
  - split; [|intros ->; reflexivity].
    destruct name as [|c rest]; [done|]. simpl.
    destruct (Ascii.eqb c "/"); discriminate.
  - intros c rest. destruct name as [|c' rest']; [discriminate|]. simpl.
    destruct (Ascii.eqb_spec c' "/") as [->|_]; intros [= <- _]; reflexivity.
  - destruct name as [|c rest]; [by left|]. simpl.
    destruct (Ascii.eqb c "/"); [by left|by right].
Qed.

Lemma GetEndpointPath_absolute_witness :
  GetEndpointPath "foo" ≠ "" ∧
  ∃ c rest, GetEndpointPath "foo" = String c rest ∧ c = "/"%char.
Proof.
  split.
  - intros H. apply (proj1 (GetEndpointPath_absolute "foo")) in H.
    discriminate H.
  - exists "/"%char, "dev/socket/pdx/foo". split; [reflexivity|].
    apply (proj1 (proj2 (GetEndpointPath_absolute "foo"))
             "/"%char "dev/socket/pdx/foo").
    reflexivity.
Defined.

End ResolverFacts.

(** ** The copy into [sun_path] *)

Section SunPathFacts.

Implicit Types (dest src bytes : list ascii) (k i n : nat).
Implicit Types (path : string).

Lemma store_Some dest i c :
  (i < length dest)%nat → store dest i c = Some (<[i:=c]> dest).
Proof. intros H. unfold store. by rewrite decide_True. Qed.

Lemma take_S_insert dest i c :
  (i < length dest)%nat → take (S i) (<[i:=c]> dest) = take i dest ++ [c].
Proof.
  intros H. rewrite (take_S_r _ _ c) by (by apply list_lookup_insert_eq).
  by rewrite take_insert_ge.
Qed.

Lemma strncpy_pad_spec k : ∀ i dest,
  (i + k ≤ length dest)%nat →
  strncpy_pad k i dest = Some (take i dest ++ replicate k NUL ++ drop (i + k) dest).
Proof.
  induction k as [|k IH]; intros i dest Hlen; simpl.
  - rewrite Nat.add_0_r, take_drop. done.
  - rewrite store_Some by lia. simpl.
    rewrite IH by (rewrite length_insert; lia).
    f_equal.
    rewrite take_S_insert by lia.
    rewrite drop_insert_lt by lia.
    replace (i + S k)%nat with (S i + k)%nat by lia.
    by rewrite <- app_assoc.
Qed.

Lemma c_string_no_NUL bytes : NUL ∉ c_string bytes.
Proof.
  induction bytes as [|c rest IH]; simpl; [apply not_elem_of_nil|].
  case_decide; [apply not_elem_of_nil|].
  rewrite not_elem_of_cons. split; [congruence|done].
Qed.

Lemma c_string_app_NUL pre rest : NUL ∉ pre → c_string (pre ++ NUL :: rest) = pre.
Proof.
  induction pre as [|c pre IH]; cbn [c_string app]; intros H.
  - by rewrite decide_True.
  - apply not_elem_of_cons in H as [? ?]. rewrite decide_False by congruence.
    f_equal. auto.
Qed.

Lemma c_string_id pre : NUL ∉ pre → c_string pre = pre.
Proof.
  induction pre as [|c pre IH]; simpl; intros H; [done|].
  apply not_elem_of_cons in H as [? ?]. rewrite decide_False by congruence.
  f_equal. auto.
Qed.

Lemma strncpy_copy_spec k : ∀ i dest src,
  (i + k ≤ length dest)%nat → NUL ∈ drop i src →
  strncpy_copy k i dest src =
    Some (take i dest ++ copied k (drop i src) ++ drop (i + k) dest).
Proof.
  induction k as [|k IH]; intros i dest src Hlen Hnul; simpl.
  - unfold copied. rewrite Nat.add_0_r. cbn [take app]. by rewrite take_drop.
  - destruct (src !! i) as [c|] eqn:Hc; simpl.
    2:{ apply lookup_ge_None in Hc. rewrite drop_ge in Hnul by done.
        by apply not_elem_of_nil in Hnul. }
    rewrite (drop_S _ _ _ Hc) in *.
    case_decide as Hz.
    + subst c. rewrite store_Some by lia. simpl.
      pose proof (strncpy_pad_spec k (S i) (<[i:=NUL]> dest)) as Hp.
      rewrite Hp by (rewrite length_insert; lia).
      f_equal. unfold copied. cbn [c_string].
      rewrite take_replicate, Nat.min_id.
      rewrite take_S_insert by lia.
      rewrite drop_insert_lt by lia.
      replace (i + S k)%nat with (S i + k)%nat by lia.
      by rewrite <- app_assoc.
    + rewrite store_Some by lia. simpl.
      apply elem_of_cons in Hnul as [?|Hnul]; [congruence|].
      rewrite IH; [|rewrite length_insert; lia|done].
      f_equal. unfold copied. cbn [c_string]. rewrite decide_False by done.
      cbn [app take].
      rewrite take_S_insert by lia.
      rewrite drop_insert_lt by lia.
      replace (i + S k)%nat with (S i + k)%nat by lia.
      rewrite <- app_assoc. simpl. do 3 f_equal. symmetry.
      rewrite replicate_cons_app, app_assoc. apply take_app_le.
      rewrite length_app, length_replicate. lia.
Qed.

Lemma c_string_take bytes : ∀ n, c_string (take n bytes) = take n (c_string bytes).
Proof.
  induction bytes as [|c rest IH]; intros [|n]; cbn [c_string take]; try done.
  case_decide; [done|]. cbn [take]. by rewrite IH.
Qed.

Lemma c_string_insert_NUL bytes : ∀ j,
  (j < length bytes)%nat → c_string (<[j:=NUL]> bytes) = take j (c_string bytes).
Proof.
  induction bytes as [|c rest IH]; intros [|j] Hj; simpl in Hj; try lia.
  - cbn [c_string]. rewrite take_0. done.
  - change (<[S j:=NUL]> (c :: rest)) with (c :: <[j:=NUL]> rest).
    cbn [c_string]. case_decide; [done|]. cbn [take]. rewrite IH by lia. done.
Qed.

Lemma c_string_padded bytes n :
  c_string (c_string bytes ++ replicate n NUL) = c_string bytes.
Proof.
  destruct n as [|n]; cbn [replicate].
  - rewrite app_nil_r. apply c_string_id, c_string_no_NUL.
  - apply c_string_app_NUL, c_string_no_NUL.
Qed.

Lemma copied_length k src : length (copied k src) = k.
Proof.
  unfold copied. rewrite length_take, length_app, length_replicate. lia.
Qed.

Lemma c_str_terminated s : NUL ∈ c_str s.
Proof. unfold c_str. apply elem_of_app. right. constructor. Qed.

Lemma fill_sun_path_eq (remote0 : list ascii) path :
  (0 < length remote0)%nat →
  fill_sun_path remote0 path =
    Some (<[length remote0 - 1 := NUL]> (copied (length remote0) (c_str path))).
Proof.
  intros Hpos. unfold fill_sun_path, strncpy.
  rewrite strncpy_copy_spec by (rewrite ?drop_0; auto using c_str_terminated; lia).
  rewrite drop_0, drop_ge, app_nil_r by (simpl; lia).
  cbn [mbind option_bind]. rewrite take_0. cbn [app].
  rewrite store_Some by (rewrite copied_length; lia). done.
Qed.

(** The array after lines 60-61: as long as before, terminated, and, read
    as a C string, the path cut to one byte less than the array. *)
Lemma fill_sun_path_bounds (remote0 : list ascii) path :
  (0 < length remote0)%nat →
  let sun_path :=
    <[(length remote0 - 1)%nat := NUL]> (copied (length remote0) (c_str path)) in
  length sun_path = length remote0 ∧
  sun_path !! (length remote0 - 1)%nat = Some NUL ∧
  c_string sun_path = take (length remote0 - 1) (c_string (c_str path)).
Proof.
  intros Hpos. cbv zeta.
  split; [by rewrite length_insert, copied_length|].
  split; [apply list_lookup_insert_eq; rewrite copied_length; lia|].
  rewrite c_string_insert_NUL by (rewrite copied_length; lia).
  unfold copied. rewrite c_string_take, c_string_padded, take_take.
  f_equal. lia.
Qed.

End SunPathFacts.

(** ** The retry loop *)

Local Open Scope Z_scope.

Section LoopFacts.

Variable ticks_per_ms : Z.
Variable endpoint_path_ : string.
Variable remote : list ascii.
Variable socket_fd : LocalHandle.
Variable use_timeout : bool.
Variable time_end : Z.

Local Abbreviation attempt := (attempt endpoint_path_ remote socket_fd use_timeout).
Local Abbreviation connect_loop :=
  (connect_loop ticks_per_ms endpoint_path_ remote socket_fd use_timeout time_end).
Local Abbreviation loop_event := (loop_event endpoint_path_ remote socket_fd).
Local Abbreviation attempt_shape :=
  (attempt_shape endpoint_path_ remote socket_fd use_timeout).
Local Abbreviation signalled := (interrupted remote socket_fd).

(** The events of [RETRY_EINTR]: interrupted calls, then the call that
    decided, if the script had one. *)
Lemma RETRY_EINTR_events rets : ∀ evs ret,
  RETRY_EINTR socket_fd remote rets = (evs, ret) →
  ∃ l,
    signalled l ∧
    evs = l ++
          match ret with
          | Some r => [EvConnect socket_fd remote r]
          | None => []
          end ∧
    ret ≠ Some (SysErr EINTR) ∧
    ∀ r, ret = Some r → r ∈ rets.
Proof.
  unfold interrupted.
  induction rets as [|r rets IH]; intros evs ret; cbn [RETRY_EINTR].
  - intros [= <- <-]. exists []. done.
  - destruct r as [|errno].
    + intros [= <- <-]. exists []. repeat split; [done..|].
      intros r [= <-]. apply list_elem_of_here.
    + destruct (Z.eqb_spec errno EINTR) as [->|Hne].
      * destruct (RETRY_EINTR socket_fd remote rets) as [evs' ret'] eqn:Hr.
        intros [= <- <-].
        destruct (IH _ _ eq_refl) as (l & Hl & -> & Hret & Hin).
        exists (EvConnect socket_fd remote (SysErr EINTR) :: l).
        split; [by constructor|]. split; [done|]. split; [done|].
        intros r Hr'. apply list_elem_of_further. by apply Hin.
      * intros [= <- <-]. exists []. split; [done|]. split; [done|].
        split; [congruence|]. intros r [= <-]. apply list_elem_of_here.
Qed.

Lemma interrupted_loop_event l :
  signalled l →
  Forall loop_event l.
Proof.
  intros H. eapply Forall_impl; [exact H|]. intros e ->. done.
Qed.

Lemma interrupted_count_eacces l :
  signalled l →
  List.filter is_eacces_connect l = [].
Proof.
  unfold interrupted. induction 1 as [|e l -> _ IH]; [done|]. simpl. done.
Qed.

Lemma attempt_has_shape timeout now max_eaccess it evs ex :
  attempt timeout now max_eaccess it = (evs, ex) →
  attempt_shape timeout now max_eaccess it evs ex.
Proof.
  unfold Connector.attempt.
  destruct (wait_status it) as [[]|error] eqn:Hw.
  2:{ intros [= <- <-]. by constructor. }
  destruct (RETRY_EINTR _ _ _) as [evc ret] eqn:Hr.
  destruct (RETRY_EINTR_events _ _ _ Hr) as (l & Hl & -> & Hne & Hin).
  destruct ret as [[|errno]|].
  - intros [= <- <-]. by constructor.
  - specialize (Hin _ eq_refl).
    destruct (Z.eqb_spec errno ECONNREFUSED) as [->|Hr1].
    { intros [= <- <-]. rewrite <- app_assoc. by constructor. }
    destruct (Z.eqb_spec errno EACCES) as [->|Hr2].
    { destruct (Z.ltb_spec 0 max_eaccess).
      - intros [= <- <-]. rewrite <- app_assoc. by constructor.
      - cbn. intros [= <- <-]. by constructor. }
    destruct (Z.eqb_spec errno ENOENT) as [->|Hr3].
    { cbn. intros [= <- <-]. constructor; auto. }
    destruct (Z.eqb_spec errno ENOTDIR) as [->|Hr4].
    { cbn. intros [= <- <-]. constructor; auto. }
    cbn. intros [= <- <-]. by constructor.
  - intros [= <- <-]. rewrite app_nil_r. by constructor.
Qed.

(** Rule induction for the loop: the deadline return, the end of the script,
    a pass that leaves the loop, and a pass that goes round again. *)
Lemma connect_loop_rule
    (P : Z → Z → list iteration → list event → loop_exit → Prop) :
  (∀ now m its,
     remaining_timeout ticks_per_ms use_timeout time_end now = None →
     P now m its [] (Return (deadline_exit time_end now))) →
  (∀ now m timeout,
     remaining_timeout ticks_per_ms use_timeout time_end now = Some timeout →
     P now m [] [] Stalled) →
  (∀ now m timeout it its evs ex,
     remaining_timeout ticks_per_ms use_timeout time_end now = Some timeout →
     attempt_shape timeout now m it evs ex →
     (∀ now' m', ex ≠ Continue now' m') →
     P now m (it :: its) evs ex) →
  (∀ now m timeout it its evs now' m' evs' ex',
     remaining_timeout ticks_per_ms use_timeout time_end now = Some timeout →
     attempt_shape timeout now m it evs (Continue now' m') →
     connect_loop now' m' its = (evs', ex') →
     P now' m' its evs' ex' →
     P now m (it :: its) (evs ++ evs') ex') →
  ∀ its now m evs ex,
    connect_loop now m its = (evs, ex) → P now m its evs ex.
Proof.
  intros Hdeadline Hend Hleave Hround.
  induction its as [|it its IH]; intros now m evs ex; cbn [Connector.connect_loop];
    destruct (remaining_timeout _ _ _ _) as [timeout|] eqn:Hrem;
    try (intros [= <- <-]; eauto; fail).
  destruct (attempt timeout now m it) as [evs0 ex0] eqn:Hat.
  apply attempt_has_shape in Hat.
  destruct ex0 as [now' m'| |o|].
  - destruct (connect_loop now' m' its) as [evs' ex'] eqn:Hloop.
    intros [= <- <-]. eauto.
  - intros [= <- <-]. eapply Hleave; eauto; done.
  - intros [= <- <-]. eapply Hleave; eauto; done.
  - intros [= <- <-]. eapply Hleave; eauto; done.
Qed.

Lemma attempt_shape_events timeout now m it evs ex :
  attempt_shape timeout now m it evs ex → Forall loop_event evs.
Proof.
  destruct 1; repeat first
    [ apply Forall_cons; split; [done|]
    | apply Forall_app; split; [by apply interrupted_loop_event|]
    | by apply interrupted_loop_event
    | apply Forall_nil_2 ].
Qed.

Lemma connect_loop_events its now m evs ex :
  connect_loop now m its = (evs, ex) → Forall loop_event evs.
Proof.
  revert its now m evs ex.
  apply (connect_loop_rule (λ _ _ _ evs _, Forall loop_event evs)).
  - intros. apply Forall_nil_2.
  - intros. apply Forall_nil_2.
  - intros. by eapply attempt_shape_events.
  - intros. apply Forall_app. split; [by eapply attempt_shape_events|done].
Qed.

Lemma wrap_int_small z : - 2^31 ≤ z < 2^31 → wrap_int z = z.
Proof. intros H. unfold wrap_int. rewrite Z.mod_small; lia. Qed.

Lemma eacces_policy_quiet resumes terminal budget l tr :
  List.filter is_eacces_connect l = [] →
  eacces_policy resumes terminal budget (l ++ tr) ↔
  eacces_policy resumes terminal budget tr.
Proof.
  induction l as [|e l IH]; [done|]. cbn [List.filter app eacces_policy].
  destruct (is_eacces_connect e); [discriminate|]. done.
Qed.

Lemma interrupted_quiet timeout l :
  signalled l →
  List.filter is_eacces_connect
    (EvWaitForEndpoint endpoint_path_ timeout :: l) = [].
Proof. intros H. cbn. by apply interrupted_count_eacces. Qed.

(** What the loop does first. *)
Lemma connect_loop_resumes its now m evs ex :
  connect_loop now m its = (evs, ex) →
  loop_resumes endpoint_path_ ex evs.
Proof.
  revert its now m evs ex.
  apply (connect_loop_rule (λ _ _ _ evs ex, loop_resumes endpoint_path_ ex evs)).
  - intros now m its _. right. split; [done|].
    unfold deadline_exit. destruct (in_int64 _); auto.
  - intros. right. auto.
  - intros now m timeout it its evs ex _ Hshape _. left.
    inversion Hshape; by eexists _, _.
  - intros now m timeout it its evs now' m' evs' ex' _ Hshape _ _. left.
    inversion Hshape; by eexists _, _.
Qed.

(** The loop keeps the [EACCES] policy with the budget [max_eaccess]. *)
Lemma connect_loop_policy its now m evs ex :
  connect_loop now m its = (evs, ex) →
  0 ≤ m ≤ 5 →
  eacces_policy (loop_resumes endpoint_path_ ex)
    (λ post, post = [] ∧ ex = Return (Failure ConnectError EACCES))
    (Z.to_nat m) evs.
Proof.
  revert its now m evs ex.
  apply (connect_loop_rule (λ now m its evs ex, 0 ≤ m ≤ 5 →
    eacces_policy (loop_resumes endpoint_path_ ex)
      (λ post, post = [] ∧ ex = Return (Failure ConnectError EACCES))
      (Z.to_nat m) evs)).
  - done.
  - done.
  - intros now m timeout it its evs ex _ Hshape Hex Hm.
    inversion Hshape as [ | l Hl | l Hl | l Hl | l Hl Hpos | l Hl Hneg Hin
                         | l errno Hl Herr | l errno Hl H1 H2 H3 H4 Hin ]; subst;
      try (by destruct (Hex _ _ eq_refl)).
    + done.
    + rewrite <- (app_nil_r (_ :: l)).
      apply eacces_policy_quiet; [by apply interrupted_quiet|done].
    + change (?e :: l ++ ?t) with ((e :: l) ++ t).
      apply eacces_policy_quiet; [by apply interrupted_quiet|done].
    + change (?e :: l ++ ?t) with ((e :: l) ++ t).
      apply eacces_policy_quiet; [by apply interrupted_quiet|].
      replace (Z.to_nat m) with 0%nat by lia. done.
    + change (?e :: l ++ ?t) with ((e :: l) ++ t).
      apply eacces_policy_quiet; [by apply interrupted_quiet|].
      cbn. destruct (Z.eqb_spec errno EACCES); [done|done].
  - intros now m timeout it its evs now' m' evs' ex' _ Hshape Hrest IH Hm.
    apply connect_loop_resumes in Hrest.
    inversion Hshape as [ | l Hl | l Hl | l Hl | l Hl Hpos | l Hl Hneg Hin
                         | l errno Hl Herr | l errno Hl H1 H2 H3 H4 Hin ]; subst.
    + change (?e :: l ++ ?t) with ((e :: l) ++ t). rewrite <- app_assoc.
      apply eacces_policy_quiet; [by apply interrupted_quiet|].
      cbn. by apply IH.
    + change (?e :: l ++ ?t) with ((e :: l) ++ t). rewrite <- app_assoc.
      apply eacces_policy_quiet; [by apply interrupted_quiet|].
      rewrite wrap_int_small in IH by lia.
      replace (Z.to_nat m) with (S (Z.to_nat (m - 1))) by lia.
      cbn. split; [by eexists|]. apply IH. lia.
    + change (?e :: l ++ ?t) with ((e :: l) ++ t). rewrite <- app_assoc.
      apply eacces_policy_quiet; [by apply interrupted_quiet|].
      cbn. destruct Herr as [-> | ->]; cbn; by apply IH.
Qed.

(** The deadline check lets the loop go on when the subtraction fits and
    the remaining time, in whole milliseconds, is not negative. *)
Lemma remaining_timeout_checked now :
  remaining_timeout ticks_per_ms true time_end now =
    if in_int64 (time_end - now)
    then if duration_cast_ms ticks_per_ms (time_end - now) <? 0
         then None
         else Some (duration_cast_ms ticks_per_ms (time_end - now))
    else None.
Proof.
  unfold remaining_timeout, int64. by destruct (in_int64 _).
Qed.

Lemma remaining_timeout_Some now timeout :
  remaining_timeout ticks_per_ms use_timeout time_end now = Some timeout →
  if use_timeout
  then 0 ≤ timeout ∧ timeout = duration_cast_ms ticks_per_ms (time_end - now) ∧
       in_int64 (time_end - now) = true
  else timeout = -1.
Proof.
  destruct use_timeout; [|by intros [= <-]].
  rewrite remaining_timeout_checked.
  destruct (in_int64 _); [|done].
  destruct (Z.ltb_spec (duration_cast_ms ticks_per_ms (time_end - now)) 0);
    [done|]. intros [= <-]. done.
Qed.

Lemma remaining_timeout_None now :
  remaining_timeout ticks_per_ms use_timeout time_end now = None →
  use_timeout = true ∧
  (deadline_exit time_end now = Undefined ∧ in_int64 (time_end - now) = false ∨
   deadline_exit time_end now = Failure Timeout ETIMEDOUT ∧
   in_int64 (time_end - now) = true ∧
   duration_cast_ms ticks_per_ms (time_end - now) < 0).
Proof.
  destruct use_timeout; [|done].
  rewrite remaining_timeout_checked. unfold deadline_exit.
  destruct (in_int64 _); [|auto].
  destruct (Z.ltb_spec (duration_cast_ms ticks_per_ms (time_end - now)) 0);
    [auto|done].
Qed.

Lemma attempt_shape_wait timeout now m it evs ex :
  attempt_shape timeout now m it evs ex →
  ∃ evs', evs = EvWaitForEndpoint endpoint_path_ timeout :: evs' ∧
          Forall (λ e, wait_timeout_is (λ _, False) e) evs'.
Proof.
  assert (Hint : ∀ l,
    signalled l →
    Forall (λ e, wait_timeout_is (λ _, False) e) l).
  { intros l H. eapply Forall_impl; [exact H|]. by intros e ->. }
  destruct 1; eexists; (split; [reflexivity|]);
    repeat first [ apply Forall_app; split; [by apply Hint|]
                 | by apply Hint
                 | apply Forall_cons; split; [done|]
                 | apply Forall_nil_2 ].
Qed.

(** Every endpoint wait is entered with the timeout the deadline check
    produced; without a deadline the check never returns. *)
Lemma connect_loop_waits its now m evs ex :
  connect_loop now m its = (evs, ex) →
  Forall (wait_timeout_is (λ t, if use_timeout then 0 ≤ t else t = -1)) evs ∧
  (∀ error, ex = Return (Failure Timeout error) → use_timeout = true).
Proof.
  revert its now m evs ex.
  apply (connect_loop_rule (λ _ _ _ evs ex,
    Forall (wait_timeout_is (λ t, if use_timeout then 0 ≤ t else t = -1)) evs ∧
    (∀ error, ex = Return (Failure Timeout error) → use_timeout = true))).
  - intros now m its [Hu _]%remaining_timeout_None. split; [apply Forall_nil_2|done].
  - intros. split; [apply Forall_nil_2|done].
  - intros now m timeout it its evs ex Hrem%remaining_timeout_Some Hshape _.
    split.
    + destruct (attempt_shape_wait _ _ _ _ _ _ Hshape) as (evs' & -> & Hevs').
      apply Forall_cons. split; [by destruct use_timeout; [destruct Hrem|]|].
      eapply Forall_impl; [exact Hevs'|]. by intros [].
    + intros error ->. inversion Hshape.
  - intros now m timeout it its evs now' m' evs' ex'
      Hrem%remaining_timeout_Some Hshape _ [IH1 IH2].
    split; [|done]. apply Forall_app. split; [|done].
    destruct (attempt_shape_wait _ _ _ _ _ _ Hshape) as (evs0 & -> & Hevs0).
    apply Forall_cons. split; [by destruct use_timeout; [destruct Hrem|]|].
    eapply Forall_impl; [exact Hevs0|]. by intros [].
Qed.

Lemma wait_timeouts_app tr1 tr2 :
  wait_timeouts (tr1 ++ tr2) = wait_timeouts tr1 ++ wait_timeouts tr2.
Proof. apply flat_map_app. Qed.

Lemma wait_timeouts_none tr :
  Forall (wait_timeout_is (λ _, False)) tr → wait_timeouts tr = [].
Proof.
  induction 1 as [|e tr He _ IH]; [done|].
  unfold wait_timeouts in *. cbn [flat_map]. rewrite IH. by destruct e.
Qed.

Lemma attempt_shape_wait_timeouts timeout now m it evs ex :
  attempt_shape timeout now m it evs ex → wait_timeouts evs = [timeout].
Proof.
  intros (evs' & -> & Hnone)%attempt_shape_wait.
  change (?e :: evs') with ([e] ++ evs').
  by rewrite wait_timeouts_app, (wait_timeouts_none evs').
Qed.

(** With a deadline, the timeout of each endpoint wait is the time from the
    clock reading of that pass ([now] on the first pass, then the reading
    taken at the end of the pass before) to the one deadline, in whole
    milliseconds. *)
Lemma connect_loop_wait_timeouts its now m evs ex :
  use_timeout = true →
  connect_loop now m its = (evs, ex) →
  wait_timeouts evs =
    (λ n, duration_cast_ms ticks_per_ms (time_end - n)) <$>
      take (length (wait_timeouts evs)) (now :: (clock_after <$> its)).
Proof.
  intros Hu. revert its now m evs ex.
  apply (connect_loop_rule (λ now _ its evs _,
    wait_timeouts evs =
      (λ n, duration_cast_ms ticks_per_ms (time_end - n)) <$>
        take (length (wait_timeouts evs)) (now :: (clock_after <$> its)))).
  - done.
  - done.
  - intros now m timeout it its evs ex Hrem%remaining_timeout_Some Hshape _.
    rewrite (attempt_shape_wait_timeouts _ _ _ _ _ _ Hshape). cbn.
    rewrite Hu in Hrem. by destruct Hrem as (_ & -> & _).
  - intros now m timeout it its evs now' m' evs' ex'
      Hrem%remaining_timeout_Some Hshape _ IH.
    assert (now' = clock_after it) as ->.
    { rewrite Hu in Hshape. by inversion Hshape. }
    rewrite wait_timeouts_app, (attempt_shape_wait_timeouts _ _ _ _ _ _ Hshape).
    cbn [app length take fmap list_fmap]. rewrite IH at 1.
    rewrite Hu in Hrem. by destruct Hrem as (_ & -> & _).
Qed.

(** The loop returns only through its deadline, wait and connect exits,
    unless the subtraction on line 72 overflows. *)
Lemma connect_loop_returns its now m evs ex :
  connect_loop now m its = (evs, ex) →
  ∀ o, ex = Return o →
    o = Undefined ∨
    ∃ kind error, o = Failure kind error ∧
      (kind = Timeout ∨ kind = WaitError ∨ kind = ConnectError).
Proof.
  revert its now m evs ex.
  apply (connect_loop_rule (λ _ _ _ evs ex, ∀ o, ex = Return o →
    o = Undefined ∨
    ∃ kind error, o = Failure kind error ∧
      (kind = Timeout ∨ kind = WaitError ∨ kind = ConnectError))).
  - intros now m its _ o [= <-]. unfold deadline_exit.
    destruct (in_int64 _); eauto 6.
  - done.
  - intros now m timeout it its evs ex _ Hshape _ o ->.
    inversion Hshape; subst; eauto 7.
  - done.
Qed.

(** The loop never hands back [Continue]: it goes round instead. *)
Lemma connect_loop_exit its now m evs ex :
  connect_loop now m its = (evs, ex) →
  ∀ now' m', ex ≠ Continue now' m'.
Proof.
  revert its now m evs ex.
  apply (connect_loop_rule (λ _ _ _ _ ex, ∀ now' m', ex ≠ Continue now' m'));
    done.
Qed.

(** The return of [EACCES] comes directly after a [connect()] that failed
    with it, when the failures before it have used up the budget. *)
Lemma connect_loop_denied its now m evs ex :
  connect_loop now m its = (evs, ex) →
  0 ≤ m ≤ 5 →
  ex = Return (Failure ConnectError EACCES) →
  ∃ pre,
    evs = pre ++ [EvConnect socket_fd remote (SysErr EACCES)] ∧
    count_eacces pre = Z.to_nat m.
Proof.
  revert its now m evs ex.
  apply (connect_loop_rule (λ _ m _ evs ex, 0 ≤ m ≤ 5 →
    ex = Return (Failure ConnectError EACCES) →
    ∃ pre,
      evs = pre ++ [EvConnect socket_fd remote (SysErr EACCES)] ∧
      count_eacces pre = Z.to_nat m)).
  - intros now m its _ _. unfold deadline_exit. by destruct (in_int64 _).
  - done.
  - intros now m timeout it its evs ex _ Hshape _ Hm ->.
    inversion Hshape as [ | | | | | l Hl Hneg Hin | | l errno Hl H1 H2 H3 H4 Hin ];
      subst; [|done].
    exists (EvWaitForEndpoint endpoint_path_ timeout :: l). split; [done|].
    unfold count_eacces. rewrite interrupted_quiet by done. cbn. lia.
  - intros now m timeout it its evs now' m' evs' ex' _ Hshape _ IH Hm Hex.
    assert (0 ≤ m' ≤ 5 ∧
            (count_eacces evs + Z.to_nat m' = Z.to_nat m)%nat) as [Hm' Hcount].
    { unfold count_eacces.
      inversion Hshape as [ | | | l Hl | l Hl Hpos | | l errno Hl Herr | ]; subst;
        change (?e :: l ++ ?t) with ((e :: l) ++ t);
        rewrite List.filter_app, interrupted_quiet by done; cbn.
      - split; [done|lia].
      - rewrite wrap_int_small by lia. split; [lia|]. cbn. lia.
      - split; [done|]. destruct Herr as [-> | ->]; cbn; lia. }
    destruct (IH Hm' Hex) as (pre & -> & Hpre).
    exists (evs ++ pre). split; [by rewrite app_assoc|].
    unfold count_eacces in *. rewrite List.filter_app, length_app. lia.
Qed.

(** Where the error of a return inside the loop comes from: the deadline
    check, or a collaborator's answer passed on as it is. *)
Lemma connect_loop_error_origin its now m evs ex :
  connect_loop now m its = (evs, ex) →
  ∀ kind error, ex = Return (Failure kind error) →
    (kind = Timeout ∧ error = ETIMEDOUT ∧ use_timeout = true) ∨
    (∃ it, it ∈ its ∧
       (kind = WaitError ∧ wait_status it = ErrorStatus error ∨
        kind = ConnectError ∧ SysErr error ∈ connect_rets it)).
Proof.
  revert its now m evs ex.
  apply (connect_loop_rule (λ _ _ its _ ex,
    ∀ kind error, ex = Return (Failure kind error) →
      (kind = Timeout ∧ error = ETIMEDOUT ∧ use_timeout = true) ∨
      (∃ it, it ∈ its ∧
         (kind = WaitError ∧ wait_status it = ErrorStatus error ∨
          kind = ConnectError ∧ SysErr error ∈ connect_rets it)))).
  - intros now m its [Hu Hexit]%remaining_timeout_None kind error [= Hex].
    left. destruct Hexit as [[Hexit _]|[Hexit _]]; rewrite Hexit in Hex; [done|].
    by injection Hex as <- <-.
  - done.
  - intros now m timeout it its evs ex _ Hshape _ kind error ->.
    right. exists it. split; [apply list_elem_of_here|].
    inversion Hshape; subst; auto.
  - intros now m timeout it its evs now' m' evs' ex' _ _ _ IH kind error Hex.
    destruct (IH _ _ Hex) as [?|(it' & Hin & Hit')]; [by left|].
    right. exists it'. split; [by apply list_elem_of_further|done].
Qed.

End LoopFacts.

(** ** Runs of [Connect] *)

Lemma destroy_valid h : IsValid h = true → destroy h = [EvClose h].
Proof. unfold destroy. by intros ->. Qed.

Lemma Connect_has_run ticks_per_ms path timeout_ms env tr out :
  Connect ticks_per_ms path timeout_ms env = (tr, out) →
  Connect_run ticks_per_ms path timeout_ms env tr out.
Proof.
  unfold Connect.
  destruct (IsValid (socket_ret env)) eqn:Hvalid; cbn [negb].
  2:{ intros [= <- <-]. by constructor. }
  destruct (fill_sun_path _ _) as [remote|] eqn:Hfill.
  2:{ intros [= <- <-]. constructor; auto. }
  destruct (deadline _ _ _) as [time_end|] eqn:Hdl.
  2:{ intros [= <- <-]. constructor; auto. }
  destruct (connect_loop _ _ _ _ _ _ _ _ _) as [evs ex] eqn:Hloop.
  destruct ex as [now' m'| |o|].
  - intros [= <- <-]. rewrite <- (app_nil_r evs). by econstructor.
  - destruct (handshake _ _) as [evs' o] eqn:Hh. intros [= <- <-].
    econstructor; eauto. unfold run_exit. by rewrite Hh.
  - destruct o; intros [= <- <-]; rewrite ?destroy_valid by done;
      [by econstructor..|rewrite <- (app_nil_r evs); by econstructor|
       by econstructor].
  - intros [= <- <-]. rewrite <- (app_nil_r evs). by econstructor.
Qed.

(** The deadline of a call that has one is the sum line 65 writes. *)
Lemma deadline_Some ticks_per_ms now timeout_ms time_end :
  deadline ticks_per_ms now timeout_ms = Some time_end →
  time_end = now + timeout_ms * ticks_per_ms ∧
  in_int64 (timeout_ms * ticks_per_ms) = true ∧
  in_int64 (now + timeout_ms * ticks_per_ms) = true.
Proof.
  unfold deadline, int64.
  destruct (in_int64 (timeout_ms * ticks_per_ms)); [|done]. cbn.
  destruct (in_int64 (now + timeout_ms * ticks_per_ms)); [|done].
  by intros [= <-].
Qed.


Lemma destroy_no_loop_call h : Forall (λ e, is_loop_call e = false) (destroy h).
Proof. unfold destroy. destruct (IsValid h); repeat constructor. Qed.

Lemma destroy_all_no_loop_call hs :
  Forall (λ e, is_loop_call e = false) (destroy_all hs).
Proof.
  induction hs as [|h hs IH]; [constructor|]. cbn [destroy_all flat_map].
  apply Forall_app. split; [apply destroy_no_loop_call|done].
Qed.

Lemma handshake_no_loop_call fd env :
  Forall (λ e, is_loop_call e = false) (handshake fd env).1.
Proof.
  unfold handshake.
  repeat match goal with
         | |- context [match ?x with _ => _ end] => destruct x
         end;
    cbn [fst move_from];
    repeat first
      [ apply Forall_cons; split; [done|]
      | apply Forall_app; split
      | apply destroy_all_no_loop_call
      | apply destroy_no_loop_call
      | apply Forall_nil_2 ].
Qed.

(** The handshake has no deadline exit. *)
Lemma handshake_kind fd env kind error :
  (handshake fd env).2 = Failure kind error →
  kind = IOError ∨ (kind = ProtocolError ∧ error = EIO).
Proof.
  unfold handshake.
  repeat match goal with
         | |- context [match ?x with _ => _ end] => destruct x
         end; cbn [snd move_from]; intros [= <- <-]; auto.
Qed.

Lemma handshake_error_origin fd env kind error :
  (handshake fd env).2 = Failure kind error →
  (kind = IOError ∧
   (send_status env = ErrorStatus error ∨ recv_status env = ErrorStatus error)) ∨
  (kind = ProtocolError ∧ error = EIO).
Proof.
  unfold handshake.
  destruct (send_status env) as [[]|e1] eqn:Hs.
  2:{ cbn [snd]. intros [= <- <-]. auto. }
  destruct (recv_status env) as [[]|e2] eqn:Hr.
  2:{ cbn [snd]. intros [= <- <-]. auto. }
  destruct (_ || _); [cbn [snd]; intros [= <- <-]; auto|].
  destruct (_ !! _); cbn [snd move_from]; discriminate.
Qed.

(** What the exit of the loop leaves to do makes no call of the loop. *)
Lemma run_exit_no_loop_call env ex tail out :
  run_exit env ex tail out →
  Forall (λ e, is_loop_call e = false) tail.
Proof.
  destruct ex as [? ?| |o|]; [| |destruct o|]; intros [-> _];
    first [ by repeat constructor | apply handshake_no_loop_call ].
Qed.

(** A return inside the loop is the return of the call; the socket is closed
    on the way out, unless the behaviour is undefined by then. *)
Lemma run_exit_return env o tail out :
  run_exit env (Return o) tail out →
  out = o ∧
  tail = match o with Undefined => [] | _ => [EvClose (socket_ret env)] end.
Proof. by destruct o; intros [-> ->]. Qed.

(** Where the error of a failed call comes from: the deadline check, the
    validation of the response, or a collaborator's answer passed on as it
    is. *)
Lemma Connect_error_origin ticks_per_ms path timeout_ms env tr kind error :
  Connect ticks_per_ms path timeout_ms env = (tr, Failure kind error) →
  (kind = Timeout ∧ error = ETIMEDOUT ∧ 0 ≤ timeout_ms) ∨
  (kind = ProtocolError ∧ error = EIO) ∨
  (kind ≠ Timeout ∧ kind ≠ ProtocolError ∧ reports env error).
Proof.
  intros Hrun%Connect_has_run.
  inversion Hrun as [Hv|Hv Hfill|remote time_end evs ex tail out Hv Hfill Hdl Hloop Hex];
    subst.
  - right. right. split; [done|]. split; [done|]. by left.
  - destruct ex as [? ?| |o|].
    + by destruct Hex.
    + destruct Hex as [_ Hout]. symmetry in Hout.
      apply handshake_error_origin in Hout as [[-> Hio]|[-> ->]]; [|auto].
      right. right. split; [done|]. split; [done|].
      right. right. done.
    + assert (o = Failure kind error) as ->
        by (destruct o; destruct Hex as [_ Hout]; congruence).
      destruct (connect_loop_error_origin _ _ _ _ _ _ _ _ _ _ _ Hloop _ _ eq_refl)
        as [(-> & -> & Hu)|(it & Hin & [[-> Hw]|[-> Hc]])].
      * left. split; [done|]. split; [done|]. by apply Z.leb_le.
      * right. right. split; [done|]. split; [done|].
        right. left. exists it. auto.
      * right. right. split; [done|]. split; [done|].
        right. left. exists it. auto.
    + by destruct Hex.
Qed.

(** ** The [EACCES] budget *)

Section PolicyFacts.

Lemma eacces_policy_split (resumes terminal : list event → Prop) :
  (∀ l, terminal l → List.filter is_eacces_connect l = []) →
  ∀ pre budget e post,
    is_eacces_connect e = true →
    eacces_policy resumes terminal budget (pre ++ e :: post) →
    ((count_eacces pre < budget)%nat →
       ∃ post', post = EvSleep 100 :: post' ∧ resumes post') ∧
    ((budget ≤ count_eacces pre)%nat →
       count_eacces pre = budget ∧ terminal post).
Proof.
  intros Hquiet. unfold count_eacces.
  induction pre as [|e0 pre IH]; intros budget e post He;
    cbn [app eacces_policy List.filter length].
  - rewrite He. destruct budget as [|budget].
    + intros Ht. split; [lia|done].
    + intros [Hsleep _]. split; [done|lia].
  - destruct (is_eacces_connect e0) eqn:He0; cbn [length].
    + destruct budget as [|budget].
      * intros Ht. apply Hquiet in Ht.
        rewrite List.filter_app in Ht. cbn in Ht. rewrite He in Ht.
        by apply app_eq_nil in Ht as [_ ?].
      * intros [_ Hrest]. destruct (IH _ _ _ He Hrest) as [H1 H2].
        split; [intros; apply H1; lia|].
        intros Hle. destruct H2 as [-> Ht]; [lia|]. done.
    + intros Hrest. exact (IH _ _ _ He Hrest).
Qed.

Lemma eacces_policy_extend
    (resumes resumes' terminal terminal' : list event → Prop) tail :
  (∀ l, resumes l → resumes' (l ++ tail)) →
  (∀ l, terminal l → terminal' (l ++ tail)) →
  List.filter is_eacces_connect tail = [] →
  ∀ evs budget,
    eacces_policy resumes terminal budget evs →
    eacces_policy resumes' terminal' budget (evs ++ tail).
Proof.
  intros Hres Hterm Htail.
  induction evs as [|e evs IH]; intros budget; cbn [app].
  - intros _. rewrite <- (app_nil_r tail). by apply eacces_policy_quiet.
  - cbn [eacces_policy]. destruct (is_eacces_connect e); [|by apply IH].
    destruct budget as [|budget]; [by apply Hterm|].
    intros [(post & -> & Hpost) Hrest]. split; [|by apply IH].
    eexists. split; [reflexivity|]. by apply Hres.
Qed.

Lemma destroy_quiet h : List.filter is_eacces_connect (destroy h) = [].
Proof. unfold destroy. by destruct (IsValid h). Qed.

Lemma destroy_all_quiet hs : List.filter is_eacces_connect (destroy_all hs) = [].
Proof.
  induction hs as [|h hs IH]; [done|]. cbn [destroy_all flat_map].
  rewrite List.filter_app, destroy_quiet. done.
Qed.

Lemma handshake_quiet fd env :
  List.filter is_eacces_connect (handshake fd env).1 = [].
Proof.
  unfold handshake.
  repeat match goal with
         | |- context [match ?x with _ => _ end] => destruct x
         end;
    cbn [fst List.filter is_eacces_connect move_from];
    rewrite ?List.filter_app, ?destroy_all_quiet, ?destroy_quiet; done.
Qed.

Lemma next_pass_app path tr tail : next_pass path tr → next_pass path (tr ++ tail).
Proof. intros (timeout & tr' & ->). by eexists _, _. Qed.

Lemma Connect_policy ticks_per_ms path timeout_ms env tr out :
  Connect ticks_per_ms path timeout_ms env = (tr, out) →
  eacces_policy
    (resumes path (socket_ret env) out)
    (λ post, post = [EvClose (socket_ret env)] ∧
             out = Failure ConnectError EACCES)
    5 tr.
Proof.
  intros Hrun%Connect_has_run.
  destruct Hrun as [Hv|Hv Hfill|remote time_end evs ex tail out Hv Hfill Hdl Hloop Hex];
    [done..|].
  pose proof (connect_loop_exit _ _ _ _ _ _ _ _ _ _ _ Hloop) as Hgo.
  apply connect_loop_policy in Hloop; [|lia].
  change (Z.to_nat 5) with 5%nat in Hloop.
  cbn [eacces_policy is_eacces_connect].
  eapply eacces_policy_extend; [| | |exact Hloop].
  - intros l [Hnext|[-> Hex']]; [left; by apply next_pass_app|]. right.
    destruct Hex' as [->|[->| ->]]; destruct Hex as [-> ->]; auto.
  - intros l [-> ->]. by destruct Hex as [-> ->].
  - destruct ex as [? ?| |o|]; [by destruct (Hgo _ _ eq_refl)| | |].
    + destruct Hex as [-> _]. apply handshake_quiet.
    + by destruct o; destruct Hex as [-> _].
    + by destruct Hex as [-> _].
Qed.

Lemma Connect_denied ticks_per_ms path timeout_ms env tr :
  Connect ticks_per_ms path timeout_ms env =
    (tr, Failure ConnectError EACCES) →
  ∃ pre sun_path,
    tr = pre ++ [EvConnect (socket_ret env) sun_path (SysErr EACCES);
                 EvClose (socket_ret env)] ∧
    count_eacces pre = 5%nat.
Proof.
  intros Hrun%Connect_has_run.
  inversion Hrun as [Hv|Hv Hfill|remote time_end evs ex tail out Hv Hfill Hdl Hloop Hex];
    subst.
  destruct ex as [? ?| |o|].
  - by destruct Hex.
  - destruct Hex as [_ Hout]. symmetry in Hout.
    by apply handshake_kind in Hout as [?|[? _]].
  - assert (o = Failure ConnectError EACCES ∧
            tail = [EvClose (socket_ret env)]) as [-> ->].
    { by destruct o; destruct Hex as [-> ?]. }
    destruct (connect_loop_denied _ _ _ _ _ _ _ _ _ _ _ Hloop ltac:(lia) eq_refl)
      as (pre & -> & Hpre).
    exists (EvSocket (socket_ret env) :: pre), remote.
    split; [by rewrite <- app_assoc|done].
  - by destruct Hex.
Qed.

Lemma attempt_denied path remote fd use_timeout timeout now m it evc :
  wait_status it = Ok () →
  RETRY_EINTR fd remote (connect_rets it) = (evc, Some (SysErr EACCES)) →
  attempt path remote fd use_timeout timeout now m it =
    if 0 <? m
    then (EvWaitForEndpoint path timeout :: evc ++ [EvSleep 100],
          Continue (if use_timeout then clock_after it else now)
            (wrap_int (m - 1)))
    else (EvWaitForEndpoint path timeout :: evc,
          Return (Failure ConnectError EACCES)).
Proof. intros Hw Hr. unfold attempt. rewrite Hw, Hr. by destruct (0 <? m). Qed.

(** C2.  A pass of the loop in which [connect()] fails with [EACCES] (after
    any number of interrupted calls): while [max_eaccess] is positive the
    pass ends with the 100 ms sleep and the loop goes round again with
    [max_eaccess] one less, so the connection is tried again; once it is
    not positive the loop is left at once, without a sleep, with the
    connect error [EACCES].
    [max_eaccess] starts at 5, hence in every call of [Connect], wherever a
    [connect()] that failed with [EACCES] stands in the trace: if fewer than
    five such failures came before it, the sleep follows and then the next
    pass of the loop, which begins with the endpoint wait, unless the
    deadline check ends the call there (or the script ends); if five came
    before it (the sixth occurrence), nothing
    follows but the close of the socket, and the call returns [EACCES].
    More than five cannot have come before it, and a call that returns the
    connect error [EACCES] does so directly after its sixth such failure. *)
Theorem Connect_eacces_budget ticks_per_ms path :
  (∀ remote fd use_timeout time_end now m it its timeout evc,
     remaining_timeout ticks_per_ms use_timeout time_end now = Some timeout →
     wait_status it = Ok () →
     RETRY_EINTR fd remote (connect_rets it) = (evc, Some (SysErr EACCES)) →
     let now' := if use_timeout then clock_after it else now in
     let rest :=
       connect_loop ticks_per_ms path remote fd use_timeout time_end now'
         (wrap_int (m - 1)) its in
     connect_loop ticks_per_ms path remote fd use_timeout time_end now m
       (it :: its) =
       if 0 <? m
       then (EvWaitForEndpoint path timeout :: evc ++ EvSleep 100 :: rest.1,
             rest.2)
       else (EvWaitForEndpoint path timeout :: evc,
             Return (Failure ConnectError EACCES))) ∧
  (∀ m, 0 < m ≤ 5 → wrap_int (m - 1) = m - 1) ∧
  (∀ timeout_ms env tr out,
     Connect ticks_per_ms path timeout_ms env = (tr, out) →
     (∀ pre fd sun_path post,
        tr = pre ++ EvConnect fd sun_path (SysErr EACCES) :: post →
        ((count_eacces pre < 5)%nat →
           ∃ post', post = EvSleep 100 :: post' ∧
                    resumes path (socket_ret env) out post') ∧
        ((5 ≤ count_eacces pre)%nat →
           count_eacces pre = 5%nat ∧ post = [EvClose (socket_ret env)] ∧
           out = Failure ConnectError EACCES)) ∧
     (out = Failure ConnectError EACCES →
      ∃ pre sun_path,
        tr = pre ++ [EvConnect (socket_ret env) sun_path (SysErr EACCES);
                     EvClose (socket_ret env)] ∧
        count_eacces pre = 5%nat)).
Proof.
  split; [|split; [intros m Hm; apply wrap_int_small; lia|]].
  - intros remote fd use_timeout time_end now m it its timeout evc Hrem Hw Hr
      now' rest.
    cbn [connect_loop]. rewrite Hrem, (attempt_denied _ _ _ _ _ _ _ _ _ Hw Hr).
    destruct (0 <? m); [|done]. subst rest now'.
    destruct (connect_loop _ _ _ _ _ _ _ _ its) as [evs' ex'].
    cbn [fst snd app]. by rewrite <- app_assoc.
  - intros timeout_ms env tr out HC. split.
    + intros pre fd sun_path post ->.
      pose proof (Connect_policy _ _ _ _ _ _ HC) as Hpol.
      apply eacces_policy_split in Hpol; [|by intros l [-> _]|done].
      destruct Hpol as [H1 H2]. split; [done|].
      intros Hle. destruct (H2 Hle) as (? & ? & ?). done.
    + intros ->. exact (Connect_denied _ _ _ _ _ HC).
Qed.

Lemma Connect_eacces_budget_witness :
  (Connect 1000000 "/x" (-1) denying).2 = Failure ConnectError EACCES.
Proof.
  pose (run := Connect 1000000 "/x" (-1) denying).
  pose (sun_path := default [] (fill_sun_path (remote_stack denying) "/x")).
  pose proof (proj2 (proj2 (Connect_eacces_budget 1000000 "/x")) (-1) denying
                run.1 run.2 eq_refl) as [Hat _].
  refine (proj2 (proj2 (proj2
    (Hat (take 17 run.1) 3 sun_path (drop 18 run.1) _) _))).
  - vm_compute. reflexivity.
  - vm_compute. lia.
Defined.

End PolicyFacts.

Lemma quot_negative_iff ticks d :
  0 < ticks → (Z.quot d ticks < 0 ↔ d ≤ - ticks).
Proof.
  intros Hpos. destruct (Z.le_gt_cases 0 d) as [Hd|Hd].
  - pose proof (Z.quot_pos d ticks Hd Hpos). lia.
  - replace d with (- - d) at 1 by lia. rewrite Z.quot_opp_l by lia.
    destruct (Z.le_gt_cases ticks (- d)) as [Hle|Hgt].
    + pose proof (Z.quot_str_pos (- d) ticks). lia.
    + rewrite Z.quot_small by lia. lia.
Qed.

(** ** Retrying *)

Section Retry.

Variable ticks_per_ms : Z.
Variable path : string.
Variable remote : list ascii.
Variable fd : LocalHandle.
Variable use_timeout : bool.
Variable time_end : Z.

Local Abbreviation connect_loop :=
  (connect_loop ticks_per_ms path remote fd use_timeout time_end).
Local Abbreviation remaining_timeout :=
  (remaining_timeout ticks_per_ms use_timeout time_end).

(** A pass that goes round again: the loop unfolds once. *)
Lemma connect_loop_continue now m it its timeout evs now' m' :
  remaining_timeout now = Some timeout →
  attempt path remote fd use_timeout timeout now m it = (evs, Continue now' m') →
  connect_loop now m (it :: its) =
    (evs ++ (connect_loop now' m' its).1, (connect_loop now' m' its).2).
Proof.
  intros Hrem Hat. cbn [Connector.connect_loop]. rewrite Hrem, Hat.
  by destruct (connect_loop now' m' its).
Qed.

(** What the loop does first on a script that has not ended. *)
Lemma connect_loop_head now m it its timeout :
  remaining_timeout now = Some timeout →
  ∃ evs, (connect_loop now m (it :: its)).1 =
         EvWaitForEndpoint path timeout :: evs.
Proof.
  intros Hrem. cbn [Connector.connect_loop]. rewrite Hrem.
  destruct (attempt _ _ _ _ _ _ _ _) as [evs ex] eqn:Hat.
  destruct (attempt_shape_wait _ _ _ _ _ _ _ _ _ _
              (attempt_has_shape _ _ _ _ _ _ _ _ _ _ Hat)) as (evs' & -> & _).
  destruct ex; [destruct (connect_loop _ _ _)|..]; by eexists.
Qed.

Lemma attempt_refused timeout now m it evc :
  wait_status it = Ok () →
  RETRY_EINTR fd remote (connect_rets it) = (evc, Some (SysErr ECONNREFUSED)) →
  attempt path remote fd use_timeout timeout now m it =
    (EvWaitForEndpoint path timeout :: evc ++ [EvSleep 100],
     Continue (if use_timeout then clock_after it else now) m).
Proof. intros Hw Hr. unfold attempt. by rewrite Hw, Hr. Qed.

Lemma attempt_missing timeout now m it evc errno :
  errno = ENOENT ∨ errno = ENOTDIR →
  wait_status it = Ok () →
  RETRY_EINTR fd remote (connect_rets it) = (evc, Some (SysErr errno)) →
  attempt path remote fd use_timeout timeout now m it =
    (EvWaitForEndpoint path timeout :: evc,
     Continue (if use_timeout then clock_after it else now) m).
Proof. intros [-> | ->] Hw Hr; unfold attempt; by rewrite Hw, Hr. Qed.

End Retry.

Lemma connect_loop_refusals ticks_per_ms path remote fd time_end n :
  ∀ now m its clock,
    connect_loop ticks_per_ms path remote fd false time_end now m
      (replicate n (answers (SysErr ECONNREFUSED) clock) ++ its) =
    (mjoin (replicate n (refused_pass path remote fd (-1))) ++
       (connect_loop ticks_per_ms path remote fd false time_end now m its).1,
     (connect_loop ticks_per_ms path remote fd false time_end now m its).2).
Proof.
  induction n as [|n IH]; intros now m its clock.
  - cbn [replicate app mjoin list_join]. by destruct (connect_loop _ _ _ _ _ _ _ _ _).
  - cbn [replicate app].
    erewrite connect_loop_continue;
      [|reflexivity|by apply attempt_refused].
    cbn [mjoin list_join app]. rewrite IH. reflexivity.
Qed.

(** C5.  A pass of the loop in which [connect()] fails with [ECONNREFUSED]
    (after any number of interrupted calls) ends with the 100 ms sleep and
    goes round again with [max_eaccess] as it was, whatever its value; what
    follows is the rest of the loop, which on a script that has not ended
    and a deadline that has not passed begins with an endpoint wait.
    Without a deadline, [n] refusals in a row are all retried, for every
    [n]. *)
Theorem refused_connect_is_retried ticks_per_ms path remote fd time_end :
  (∀ use_timeout now m it its timeout evc,
     remaining_timeout ticks_per_ms use_timeout time_end now = Some timeout →
     wait_status it = Ok () →
     RETRY_EINTR fd remote (connect_rets it) =
       (evc, Some (SysErr ECONNREFUSED)) →
     let now' := if use_timeout then clock_after it else now in
     let rest :=
       connect_loop ticks_per_ms path remote fd use_timeout time_end now' m its in
     connect_loop ticks_per_ms path remote fd use_timeout time_end now m
       (it :: its) =
       (EvWaitForEndpoint path timeout :: evc ++ EvSleep 100 :: rest.1, rest.2) ∧
     (∀ timeout',
        its ≠ [] →
        remaining_timeout ticks_per_ms use_timeout time_end now' = Some timeout' →
        ∃ evs, rest.1 = EvWaitForEndpoint path timeout' :: evs)) ∧
  (∀ n now m its clock,
     let rest :=
       connect_loop ticks_per_ms path remote fd false time_end now m its in
     connect_loop ticks_per_ms path remote fd false time_end now m
       (replicate n (answers (SysErr ECONNREFUSED) clock) ++ its) =
       (mjoin (replicate n (refused_pass path remote fd (-1))) ++ rest.1,
        rest.2)).
Proof.
  split.
  - intros use_timeout now m it its timeout evc Hrem Hw Hr now' rest. split.
    + erewrite connect_loop_continue; [|exact Hrem|by apply attempt_refused].
      cbn [app]. by rewrite <- app_assoc.
    + intros timeout' Hne Hrem'. destruct its as [|it' its']; [done|].
      by apply connect_loop_head.
  - intros. apply connect_loop_refusals.
Qed.

Lemma refused_connect_is_retried_witness :
  connect_loop 1000000 "/x" [] 3 false 0 0 0
    [answers (SysErr ECONNREFUSED) 0; answers SysOk 0] =
    ([EvWaitForEndpoint "/x" (-1);
      EvConnect 3 [] (SysErr ECONNREFUSED);
      EvSleep 100;
      EvWaitForEndpoint "/x" (-1);
      EvConnect 3 [] SysOk],
     Connected).
Proof.
  exact (proj1 (proj1 (refused_connect_is_retried 1000000 "/x" [] 3 0)
                  false 0 0 (answers (SysErr ECONNREFUSED) 0)
                  [answers SysOk 0] (-1)
                  [EvConnect 3 [] (SysErr ECONNREFUSED)]
                  eq_refl eq_refl eq_refl)).
Defined.

(** C6.  A pass of the loop in which [connect()] fails with [ENOENT] or
    [ENOTDIR] emits the endpoint wait and the [connect()] calls only, no
    sleep, and goes round again with [max_eaccess] as it was; on a script
    that has not ended and a deadline that has not passed the next thing
    is an endpoint wait. *)
Theorem missing_endpoint_is_retried_at_once
    ticks_per_ms path remote fd time_end use_timeout now m it its
    timeout evc errno :
  errno = ENOENT ∨ errno = ENOTDIR →
  remaining_timeout ticks_per_ms use_timeout time_end now = Some timeout →
  wait_status it = Ok () →
  RETRY_EINTR fd remote (connect_rets it) = (evc, Some (SysErr errno)) →
  let now' := if use_timeout then clock_after it else now in
  let rest :=
    connect_loop ticks_per_ms path remote fd use_timeout time_end now' m its in
  connect_loop ticks_per_ms path remote fd use_timeout time_end now m
    (it :: its) =
    (EvWaitForEndpoint path timeout :: evc ++ rest.1, rest.2) ∧
  (∀ ms, EvSleep ms ∉ EvWaitForEndpoint path timeout :: evc) ∧
  (∀ timeout',
     its ≠ [] →
     remaining_timeout ticks_per_ms use_timeout time_end now' = Some timeout' →
     ∃ evs, rest.1 = EvWaitForEndpoint path timeout' :: evs).
Proof.
  intros Herr Hrem Hw Hr now' rest. split; [|split].
  - pose proof (attempt_missing path remote fd use_timeout timeout now m it
                  evc errno Herr Hw Hr) as Hat.
    by rewrite (connect_loop_continue _ _ _ _ _ _ _ _ _ its _ _ _ _ Hrem Hat).
  - intros ms Hin. apply elem_of_cons in Hin as [?|Hin]; [done|].
    destruct (RETRY_EINTR_events _ _ _ _ _ Hr) as (l & Hl & -> & _ & _).
    apply elem_of_app in Hin as [Hin|Hin].
    + unfold interrupted in Hl. rewrite Forall_forall in Hl.
      by specialize (Hl _ Hin).
    + by apply list_elem_of_singleton in Hin.
  - intros timeout' Hne Hrem'. destruct its as [|it' its']; [done|].
    by apply connect_loop_head.
Qed.

Lemma missing_endpoint_is_retried_at_once_witness :
  connect_loop 1000000 "/x" [] 3 true 5000000 0 0
    [answers (SysErr ENOTDIR) 1000000; answers SysOk 2000000] =
    ([EvWaitForEndpoint "/x" 5;
      EvConnect 3 [] (SysErr ENOTDIR);
      EvWaitForEndpoint "/x" 4;
      EvConnect 3 [] SysOk],
     Connected).
Proof.
  exact (proj1 (missing_endpoint_is_retried_at_once 1000000 "/x" [] 3 5000000
                  true 0 0 (answers (SysErr ENOTDIR) 1000000)
                  [answers SysOk 2000000] 5
                  [EvConnect 3 [] (SysErr ENOTDIR)] ENOTDIR
                  (or_intror eq_refl) eq_refl eq_refl eq_refl)).
Defined.

(** ** The deadline *)

Lemma Forall_wait_loop_call P tail :
  Forall (λ e, is_loop_call e = false) tail →
  Forall (wait_timeout_is P) tail.
Proof. intros H. eapply Forall_impl; [exact H|]. by intros []. Qed.

Lemma Connect_waits ticks_per_ms path timeout_ms env tr out :
  Connect ticks_per_ms path timeout_ms env = (tr, out) →
  Forall (wait_timeout_is
            (λ t, if 0 <=? timeout_ms then 0 ≤ t else t = -1)) tr ∧
  (∀ error, out = Failure Timeout error → (0 <=? timeout_ms) = true).
Proof.
  intros Hrun%Connect_has_run.
  destruct Hrun as [Hv|Hv Hfill|remote time_end evs ex tail out Hv Hfill Hdl Hloop Hex].
  - split; [by repeat constructor|done].
  - split; [by repeat constructor|done].
  - destruct (connect_loop_waits _ _ _ _ _ _ _ _ _ _ _ Hloop) as [Hw Ht].
    split.
    + apply Forall_cons. split; [done|]. apply Forall_app. split; [done|].
      apply Forall_wait_loop_call. by eapply run_exit_no_loop_call.
    + intros error ->. destruct ex as [? ?| |o|].
      * by destruct Hex.
      * destruct Hex as [_ Hout]. symmetry in Hout.
        by apply handshake_kind in Hout as [?|[? _]].
      * apply run_exit_return in Hex as [<- _]. eauto.
      * by destruct Hex.
Qed.

(** The deadline is computed once, from the first clock reading; the
    timeout of each endpoint wait is the time left to it at the clock
    reading of that pass. *)
Lemma Connect_wait_timeouts ticks_per_ms path timeout_ms env tr out :
  0 ≤ timeout_ms →
  Connect ticks_per_ms path timeout_ms env = (tr, out) →
  let time_end := clock_start env + timeout_ms * ticks_per_ms in
  wait_timeouts tr =
    (λ now, Z.quot (time_end - now) ticks_per_ms) <$>
      take (length (wait_timeouts tr))
        (clock_start env :: (clock_after <$> iterations env)).
Proof.
  intros Hnn Hrun%Connect_has_run. cbv zeta.
  destruct Hrun as [Hv|Hv Hfill|remote time_end evs ex tail out Hv Hfill Hdl Hloop Hex];
    [done..|].
  apply deadline_Some in Hdl as (-> & _).
  assert (wait_timeouts (EvSocket (socket_ret env) :: evs ++ tail) =
          wait_timeouts evs) as ->.
  { change (?e :: evs ++ tail) with ([e] ++ evs ++ tail).
    rewrite !wait_timeouts_app, (wait_timeouts_none tail), app_nil_r; [done|].
    apply Forall_wait_loop_call. by eapply run_exit_no_loop_call. }
  eapply connect_loop_wait_timeouts; [|exact Hloop]. by apply Z.leb_le.
Qed.




(** Line 65 at the largest [timeout_ms], and at one whose conversion to
    nanoseconds no longer fits: a signed overflow before the loop is
    entered. *)
Example Connect_deadline_overflows :
  Connect 1000000 "/x" (2^63 - 1) accepting = ([EvSocket 3], Undefined) ∧
  Connect 1000000 "/x" 18446744073710 accepting = ([EvSocket 3], Undefined) ∧
  deadline 1000000 0 9223372036854 = Some 9223372036854000000 ∧
  deadline 1000000 0 9223372036855 = None.
Proof. repeat split; vm_compute; reflexivity. Qed.


(** ** The handshake *)

Section Handshake.

Variable fd : LocalHandle.
Variable env : environment.

Hypothesis sent : send_status env = Ok ().
Hypothesis received : recv_status env = Ok ().

Local Abbreviation fds := (file_descriptors (recv_response env)).
Local Abbreviation ref := (ret_code (recv_response env)).

Lemma to_size_t_small z : 0 ≤ z < 2^64 → to_size_t z = z.
Proof. intros H. unfold to_size_t. by rewrite Z.mod_small. Qed.

(** What the test on line 127 does reject. *)
Lemma handshake_rejects_beyond_count :
  ref < 0 ∨ Z.of_nat (length fds) < ref < 2^64 →
  handshake fd env =
    (EvSendData fd (InitRequest CHANNEL_OPEN 0 0 false) :: EvReceiveData fd ::
       destroy_all fds ++ destroy fd,
     Failure ProtocolError EIO).
Proof.
  intros Hout. unfold handshake. rewrite sent, received.
  destruct (Z.ltb_spec ref 0) as [|Hnn]; [done|].
  destruct Hout as [|Hgt]; [lia|].
  rewrite to_size_t_small by lia.
  destruct (Z.ltb_spec (Z.of_nat (length fds)) ref); [done|lia].
Qed.

(** C1, the code at the failing input.  When the response's return code
    equals the number of descriptors it carries, the test on line 127 lets
    it through and line 130 indexes the descriptor vector one past its
    end. *)
Theorem handshake_indexes_at_count :
  ref = Z.of_nat (length fds) →
  Z.of_nat (length fds) < 2^64 →
  handshake fd env =
    ([EvSendData fd (InitRequest CHANNEL_OPEN 0 0 false); EvReceiveData fd],
     Undefined).
Proof.
  intros Href Hsize. unfold handshake. rewrite sent, received.
  destruct (Z.ltb_spec ref 0) as [|Hnn]; [lia|].
  rewrite to_size_t_small by lia.
  destruct (Z.ltb_spec (Z.of_nat (length fds)) ref); [lia|]. cbn [orb].
  rewrite Href, Nat2Z.id.
  by rewrite (proj2 (lookup_ge_None fds (length fds))) by lia.
Qed.

End Handshake.

Lemma handshake_indexes_at_count_witness :
  handshake 3 index_at_size =
    ([EvSendData 3 (InitRequest CHANNEL_OPEN 0 0 false); EvReceiveData 3],
     Undefined).
Proof.
  apply handshake_indexes_at_count; [reflexivity|reflexivity|reflexivity|].
  vm_compute. reflexivity.
Defined.

Example Connect_index_at_size :
  (Connect 1000000 "/dev/socket/pdx/foo" (-1) index_at_size).2 = Undefined.
Proof. vm_compute. reflexivity. Qed.

(** The validation fails only on the test of line 127. *)
Lemma handshake_protocol_error fd env error :
  (handshake fd env).2 = Failure ProtocolError error →
  error = EIO ∧
  (ret_code (recv_response env) < 0 ∨
   Z.of_nat (length (file_descriptors (recv_response env))) <
     to_size_t (ret_code (recv_response env))).
Proof.
  unfold handshake.
  destruct (send_status env) as [[]|e1]; [|discriminate].
  destruct (recv_status env) as [[]|e2]; [|discriminate].
  destruct (Z.ltb_spec (ret_code (recv_response env)) 0) as [Hneg|Hnn].
  { cbn [orb snd]. intros [= <-]. auto. }
  destruct (Z.ltb_spec (Z.of_nat (length (file_descriptors (recv_response env))))
              (to_size_t (ret_code (recv_response env)))) as [Hgt|Hle].
  { cbn [orb snd]. intros [= <-]. auto. }
  cbn [orb]. destruct (_ !! _); cbn [snd move_from]; discriminate.
Qed.

(** C4 as stated fails on the code: a response with a negative return code
    and a [ReceiveData] that fails with [EIO] give the caller the same
    value. *)
Lemma protocol_error_is_an_errno :
  (Connect 1000000 "/x" (-1) negative_index).2 = Failure ProtocolError EIO ∧
  (Connect 1000000 "/x" (-1) receive_eio).2 = Failure IOError EIO ∧
  returned (Connect 1000000 "/x" (-1) negative_index).2 =
    returned (Connect 1000000 "/x" (-1) receive_eio).2.
Proof. repeat split; vm_compute; reflexivity. Qed.

(** C4, as amended.  A failed validation of the handshake response (the
    return code is negative or above the number of descriptors) is returned
    as [ErrorStatus(EIO)]: an error number, in the same [Status] as the
    failures of wait, connect, send and receive, all of which return the
    error number they were given. *)
Theorem protocol_error_returns_EIO ticks_per_ms path timeout_ms env tr error :
  Connect ticks_per_ms path timeout_ms env = (tr, Failure ProtocolError error) →
  error = EIO ∧
  returned (Failure ProtocolError error) = Some (ErrorStatus EIO) ∧
  (ret_code (recv_response env) < 0 ∨
   Z.of_nat (length (file_descriptors (recv_response env))) <
     to_size_t (ret_code (recv_response env))) ∧
  (∀ tr' kind' error',
     Connect ticks_per_ms path timeout_ms env = (tr', Failure kind' error') →
     returned (Failure kind' error') = Some (ErrorStatus error')).
Proof.
  intros Hrun%Connect_has_run.
  assert (error = EIO ∧
          (ret_code (recv_response env) < 0 ∨
           Z.of_nat (length (file_descriptors (recv_response env))) <
             to_size_t (ret_code (recv_response env)))) as [-> Hrange];
    [|done].
  inversion Hrun as [Hv|Hv Hfill|remote time_end evs ex tail out Hv Hfill Hdl Hloop Hex];
    subst.
  destruct ex as [? ?| |o|].
  - by destruct Hex.
  - destruct Hex as [_ Hout]. symmetry in Hout.
    by apply handshake_protocol_error in Hout.
  - apply run_exit_return in Hex as [<- _].
    destruct (connect_loop_returns _ _ _ _ _ _ _ _ _ _ _ Hloop _ eq_refl)
      as [?|(k & e & [= <- <-] & [?|[?|?]])]; done.
  - by destruct Hex.
Qed.

Lemma protocol_error_returns_EIO_witness :
  returned (Connect 1000000 "/x" (-1) negative_index).2 =
    Some (ErrorStatus EIO).
Proof.
  exact (proj1 (proj2
           (protocol_error_returns_EIO 1000000 "/x" (-1) negative_index
              (Connect 1000000 "/x" (-1) negative_index).1 EIO eq_refl))).
Defined.

(** ** Ownership of descriptors *)

Section Ownership.

Lemma closed_app tr1 tr2 : closed (tr1 ++ tr2) = closed tr1 ++ closed tr2.
Proof. apply flat_map_app. Qed.

Lemma handed_app tr1 tr2 : handed (tr1 ++ tr2) = handed tr1 ++ handed tr2.
Proof. apply flat_map_app. Qed.

Lemma times_app fd l1 l2 : times fd (l1 ++ l2) = (times fd l1 + times fd l2)%nat.
Proof. unfold times. by rewrite List.filter_app, length_app. Qed.

Lemma loop_events_closed path remote fd evs :
  Forall (loop_event path remote fd) evs → closed evs = [] ∧ handed evs = [].
Proof.
  induction 1 as [|e evs He _ [IH1 IH2]]; [done|].
  unfold closed, handed in *. cbn [flat_map]. rewrite IH1, IH2.
  by destruct e.
Qed.

Lemma closed_destroy h : closed (destroy h) = if IsValid h then [h] else [].
Proof. unfold destroy. by destruct (IsValid h). Qed.

Lemma handed_destroy h : handed (destroy h) = [].
Proof. unfold destroy. by destruct (IsValid h). Qed.

Lemma closed_destroy_all hs : closed (destroy_all hs) = List.filter IsValid hs.
Proof.
  induction hs as [|h hs IH]; [done|]. cbn [destroy_all flat_map List.filter].
  rewrite closed_app, closed_destroy. fold (destroy_all hs). rewrite IH.
  by destruct (IsValid h).
Qed.

Lemma handed_destroy_all hs : handed (destroy_all hs) = [].
Proof.
  induction hs as [|h hs IH]; [done|]. cbn [destroy_all flat_map].
  rewrite handed_app, handed_destroy. done.
Qed.

Lemma times_absent fd hs : fd ∉ hs → times fd (List.filter IsValid hs) = 0%nat.
Proof.
  unfold times. induction hs as [|h hs IH]; [done|].
  intros [Hne Hnin]%not_elem_of_cons. cbn [List.filter].
  destruct (IsValid h); [|by apply IH]. cbn [List.filter].
  destruct (Z.eqb_spec fd h); [done|by apply IH].
Qed.

Lemma times_self fd : times fd [fd] = 1%nat.
Proof. unfold times. cbn. by rewrite Z.eqb_refl. Qed.

Lemma not_elem_of_insert_empty (fd : Z) (hs : list Z) i :
  IsValid fd = true → fd ∉ hs → fd ∉ <[i:=kEmptyFileHandle]> hs.
Proof.
  intros Hv Hnin Hin. apply list_elem_of_lookup in Hin as [j Hj].
  apply list_lookup_insert_Some in Hj as [(-> & <- & _)|[_ Hj]].
  - done.
  - apply Hnin. by eapply list_elem_of_lookup_2.
Qed.

(** The releases of the handshake: on failure the socket is closed last and
    once; on success it goes to the registry and is not closed. *)
Lemma handshake_ownership fd env :
  IsValid fd = true →
  fd ∉ file_descriptors (recv_response env) →
  match (handshake fd env).2 with
  | Failure _ _ =>
      times fd (closed (handshake fd env).1) = 1%nat ∧
      handed (handshake fd env).1 = [] ∧
      last (handshake fd env).1 = Some (EvClose fd)
  | Success d v =>
      d = fd ∧
      times fd (closed (handshake fd env).1) = 0%nat ∧
      times fd (handed (handshake fd env).1) = 1%nat
  | Undefined | Running => True
  end.
Proof.
  intros Hv Hfresh. unfold handshake.
  destruct (send_status env) as [[]|e1].
  2:{ cbn [fst snd]. rewrite destroy_valid by done. cbn.
      by rewrite Z.eqb_refl. }
  destruct (recv_status env) as [[]|e2].
  2:{ cbn [fst snd]. rewrite destroy_valid by done.
      rewrite !app_comm_cons, last_snoc, closed_app, handed_app, times_app.
      unfold closed at 1, handed at 1. cbn [flat_map app].
      rewrite closed_destroy_all, handed_destroy_all, times_absent by done.
      split; [|done]. cbn. by rewrite Z.eqb_refl. }
  destruct (_ || _).
  { cbn [fst snd]. rewrite destroy_valid by done.
    rewrite !app_comm_cons, last_snoc, closed_app, handed_app, times_app.
    unfold closed at 1, handed at 1. cbn [flat_map app].
    rewrite closed_destroy_all, handed_destroy_all, times_absent by done.
    split; [|done]. cbn. by rewrite Z.eqb_refl. }
  destruct (_ !! _) as [slot|] eqn:Hslot; [|done].
  cbn [move_from fst snd]. split; [done|].
  change (destroy kEmptyFileHandle) with (@nil event).
  rewrite app_nil_r. cbn [app].
  unfold closed, handed. cbn [flat_map app].
  fold (closed (destroy_all (<[Z.to_nat (ret_code (recv_response env)):=kEmptyFileHandle]>
                               (file_descriptors (recv_response env))))).
  fold (handed (destroy_all (<[Z.to_nat (ret_code (recv_response env)):=kEmptyFileHandle]>
                               (file_descriptors (recv_response env))))).
  rewrite closed_destroy_all, handed_destroy_all.
  split.
  - apply times_absent. by apply not_elem_of_insert_empty.
  - unfold times. cbn. rewrite Z.eqb_refl.
    destruct (Z.eqb_spec fd slot) as [->|]; [|done].
    destruct Hfresh. by eapply list_elem_of_lookup_2.
Qed.


Lemma filter_valid_moved (hs : list Z) i slot :
  hs !! i = Some slot →
  List.filter IsValid (<[i:=kEmptyFileHandle]> hs) ++ List.filter IsValid [slot]
    ≡ₚ List.filter IsValid hs.
Proof.
  intros Hslot.
  rewrite insert_take_drop by (by eapply lookup_lt_Some).
  rewrite <- (take_drop_middle hs i slot Hslot) at 3.
  rewrite !List.filter_app. cbn [List.filter].
  change (IsValid kEmptyFileHandle) with false. cbn iota.
  rewrite <- app_assoc. apply Permutation_app_head.
  destruct (IsValid slot); [|by rewrite app_nil_r].
  symmetry. apply Permutation_cons_append.
Qed.

Lemma loop_events_not_receive path remote fd evs :
  Forall (loop_event path remote fd) evs → existsb is_receive evs = false.
Proof.
  induction 1 as [|e evs He _ IH]; [done|]. cbn [existsb]. rewrite IH.
  by destruct e.
Qed.

Lemma handshake_releases fd env :
  IsValid fd = true →
  let tr := (handshake fd env).1 in
  match (handshake fd env).2 with
  | Failure _ _ | Success _ _ =>
      released tr ≡ₚ
        fd :: if existsb is_receive tr
              then List.filter IsValid (file_descriptors (recv_response env))
              else []
  | Undefined | Running => True
  end.
Proof.
  intros Hv. cbv zeta. unfold handshake, released.
  destruct (send_status env) as [[]|e1].
  2:{ cbn [fst snd]. rewrite destroy_valid by done. done. }
  destruct (recv_status env) as [[]|e2].
  2:{ cbn [fst snd existsb is_receive orb]. rewrite destroy_valid by done.
      rewrite !app_comm_cons, closed_app, handed_app.
      unfold closed at 1, handed at 1. cbn [flat_map app].
      rewrite closed_destroy_all, handed_destroy_all. cbn.
      rewrite app_nil_r. symmetry. apply Permutation_cons_append. }
  destruct (_ || _).
  { cbn [fst snd existsb is_receive orb]. rewrite destroy_valid by done.
    rewrite !app_comm_cons, closed_app, handed_app.
    unfold closed at 1, handed at 1. cbn [flat_map app].
    rewrite closed_destroy_all, handed_destroy_all. cbn.
    rewrite app_nil_r. symmetry. apply Permutation_cons_append. }
  destruct (_ !! _) as [slot|] eqn:Hslot; [|done].
  cbn [move_from fst snd existsb is_receive orb].
  change (destroy kEmptyFileHandle) with (@nil event).
  rewrite app_nil_r. cbn [app].
  unfold closed, handed. cbn [flat_map app].
  fold (closed (destroy_all (<[Z.to_nat (ret_code (recv_response env)):=kEmptyFileHandle]>
                               (file_descriptors (recv_response env))))).
  fold (handed (destroy_all (<[Z.to_nat (ret_code (recv_response env)):=kEmptyFileHandle]>
                               (file_descriptors (recv_response env))))).
  rewrite closed_destroy_all, handed_destroy_all.
  cbn [List.filter]. rewrite Hv.
  rewrite <- Permutation_middle. apply Permutation_skip.
  by apply filter_valid_moved.
Qed.

(** Every descriptor the call owns when it returns has been released, and
    released once. *)
Lemma Connect_releases ticks_per_ms path timeout_ms env tr out :
  Connect ticks_per_ms path timeout_ms env = (tr, out) →
  IsValid (socket_ret env) = true →
  match out with
  | Failure _ _ | Success _ _ => released tr ≡ₚ owned env tr
  | Undefined | Running => True
  end.
Proof.
  intros Hrun%Connect_has_run Hvalid.
  destruct Hrun as [Hv|Hv Hfill|remote time_end evs ex tail out Hv Hfill Hdl Hloop Hex];
    [congruence|done|].
  pose proof (connect_loop_events _ _ _ _ _ _ _ _ _ _ _ Hloop) as Hevs.
  pose proof (loop_events_not_receive _ _ _ _ Hevs) as Hnr.
  apply loop_events_closed in Hevs as [Hc Hh].
  assert (released (EvSocket (socket_ret env) :: evs ++ tail) = released tail)
    as ->.
  { unfold released. change (?e :: evs ++ tail) with ([e] ++ evs ++ tail).
    by rewrite !closed_app, !handed_app, Hc, Hh. }
  assert (owned env (EvSocket (socket_ret env) :: evs ++ tail) = owned env tail)
    as ->.
  { unfold owned. cbn [existsb is_receive orb]. by rewrite existsb_app, Hnr. }
  destruct ex as [? ?| |o|].
  - by destruct Hex as [-> ->].
  - destruct Hex as [-> ->]. apply (handshake_releases _ env Hv).
  - apply run_exit_return in Hex as [-> ->].
    by destruct (connect_loop_returns _ _ _ _ _ _ _ _ _ _ _ Hloop _ eq_refl)
      as [->|(k & e & -> & _)].
  - by destruct Hex as [-> ->].
Qed.

(** A call that got as far as [ReceiveData] left its loop connected. *)
Lemma Connect_received ticks_per_ms path timeout_ms env tr out :
  Connect ticks_per_ms path timeout_ms env = (tr, out) →
  EvReceiveData (socket_ret env) ∈ tr →
  ∃ evs,
    Forall (loop_event path
              (default [] (fill_sun_path (remote_stack env) path))
              (socket_ret env)) evs ∧
    tr = EvSocket (socket_ret env) :: evs ++ (handshake (socket_ret env) env).1 ∧
    out = (handshake (socket_ret env) env).2 ∧
    send_status env = Ok ().
Proof.
  intros Hrun%Connect_has_run Hin.
  destruct Hrun as [Hv|Hv Hfill|remote time_end evs ex tail out Hv Hfill Hdl Hloop Hex].
  - by apply list_elem_of_singleton in Hin.
  - by apply list_elem_of_singleton in Hin.
  - pose proof (connect_loop_events _ _ _ _ _ _ _ _ _ _ _ Hloop) as Hevs.
    apply elem_of_cons in Hin as [?|Hin]; [done|].
    apply elem_of_app in Hin as [Hin|Hin].
    { rewrite Forall_forall in Hevs. by destruct (Hevs _ Hin). }
    destruct ex as [? ?| |o|].
    + destruct Hex as [-> _]. by apply elem_of_nil in Hin.
    + destruct Hex as [-> ->]. exists evs. rewrite Hfill.
      split; [done|]. split; [done|]. split; [done|].
      unfold handshake in Hin. destruct (send_status env) as [[]|e1]; [done|].
      cbn [fst] in Hin. apply elem_of_cons in Hin as [?|Hin]; [done|].
      unfold destroy in Hin. rewrite Hv in Hin.
      by apply list_elem_of_singleton in Hin.
    + apply run_exit_return in Hex as [_ ->].
      destruct o; first [ by apply list_elem_of_singleton in Hin
                        | by apply elem_of_nil in Hin ].
    + destruct Hex as [-> _]. by apply elem_of_nil in Hin.
Qed.

(** C8.  When [socket()] fails, nothing else is called and nothing is
    closed.  Otherwise, with the received descriptors distinct from the
    socket: on every return with an error the socket is closed once, as
    the last call before returning, and nothing is given to the registry;
    on success the socket is given to the registry once and is not closed.
    On both, the descriptors released (closed or given to the registry)
    are, one for one, the descriptors the call owns: none is left open and
    none is released twice.  One exit is left: a response whose return code
    equals the number of its descriptors passes the test on line 127, and on
    line 130 the call moves a descriptor out of the element one past the
    end of the vector; the behaviour is undefined from there, with the
    socket and the received descriptors neither closed nor given to the
    registry up to that point.  (A call whose deadline arithmetic overflows
    is neither a return with an error nor a success.) *)
Theorem Connect_socket_ownership ticks_per_ms path timeout_ms env tr out :
  Connect ticks_per_ms path timeout_ms env = (tr, out) →
  let fd := socket_ret env in
  let response := recv_response env in
  (IsValid fd = false →
     tr = [EvSocket fd] ∧ out = Failure ResourceError (socket_errno env)) ∧
  (IsValid fd = true →
   fd ∉ file_descriptors response →
     (∀ kind error, out = Failure kind error →
        times fd (closed tr) = 1%nat ∧ handed tr = [] ∧
        last tr = Some (EvClose fd) ∧
        released tr ≡ₚ owned env tr) ∧
     (∀ d v, out = Success d v →
        d = fd ∧ times fd (closed tr) = 0%nat ∧
        times fd (handed tr) = 1%nat ∧
        released tr ≡ₚ owned env tr)) ∧
  (EvReceiveData fd ∈ tr →
   recv_status env = Ok () →
   ret_code response = Z.of_nat (length (file_descriptors response)) →
   Z.of_nat (length (file_descriptors response)) < 2^64 →
     out = Undefined ∧ last tr = Some (EvReceiveData fd) ∧
     released tr = []).
Proof.
  intros HC. pose proof (Connect_releases _ _ _ _ _ _ HC) as Hrel.
  pose proof (Connect_received _ _ _ _ _ _ HC) as Hrecv.
  apply Connect_has_run in HC as Hrun. cbv zeta.
  split; [|split].
  3:{ intros Hin Hr Href Hsize.
      destruct (Hrecv Hin) as (evs & Hevs & -> & -> & Hs).
      apply loop_events_closed in Hevs as [Hc Hh].
      unfold handshake. rewrite Hs, Hr, Href.
      rewrite to_size_t_small by lia.
      replace (_ <? 0) with false by (symmetry; apply Z.ltb_ge; lia).
      rewrite Z.ltb_irrefl, Nat2Z.id. cbn [orb].
      rewrite (lookup_ge_None_2 _ (length _)) by done. cbn [fst snd].
      split; [done|]. split.
      - by rewrite app_comm_cons, last_app.
      - unfold released.
        change (?e :: evs ++ ?t) with ([e] ++ evs ++ t).
        by rewrite !closed_app, !handed_app, Hc, Hh. }
  all: destruct Hrun
    as [Hv|Hv Hfill|remote time_end evs ex tail out Hv Hfill Hdl Hloop Hex].
  - done.
  - congruence.
  - congruence.
  - intros Hv'. congruence.
  - intros _ _. split; intros; discriminate.
  - intros _ Hfresh. specialize (Hrel Hv).
    pose proof (connect_loop_events _ _ _ _ _ _ _ _ _ _ _ Hloop) as Hevs.
    apply loop_events_closed in Hevs as [Hc Hh].
    assert (closed (EvSocket (socket_ret env) :: evs ++ tail) = closed tail)
      as Hclosed.
    { change (?e :: evs ++ tail) with ([e] ++ evs ++ tail).
      by rewrite !closed_app, Hc. }
    assert (handed (EvSocket (socket_ret env) :: evs ++ tail) = handed tail)
      as Hhanded.
    { change (?e :: evs ++ tail) with ([e] ++ evs ++ tail).
      by rewrite !handed_app, Hh. }
    rewrite Hclosed, Hhanded.
    destruct ex as [? ?| |o|].
    + destruct Hex as [-> ->]. split; intros; discriminate.
    + destruct Hex as [-> ->].
      pose proof (handshake_ownership _ env Hv Hfresh) as Hown.
      assert (∀ l, l ≠ [] → last (EvSocket (socket_ret env) :: evs ++ l) = last l)
        as Hlast.
      { intros l Hl. rewrite app_comm_cons, last_app.
        destruct (last l) eqn:E; [done|]. by apply last_None in E. }
      destruct (handshake (socket_ret env) env).2 eqn:Hout;
        split; intros ?? [=]; subst.
      * destruct Hown as (? & ? & ?). done.
      * destruct Hown as (? & ? & Hl). split; [done|]. split; [done|].
        split; [|done].
        rewrite Hlast; [done|]. intros E. by rewrite E in Hl.
    + apply run_exit_return in Hex as [-> ->].
      destruct (connect_loop_returns _ _ _ _ _ _ _ _ _ _ _ Hloop _ eq_refl)
        as [->|(k & e & -> & _)]; [split; intros; discriminate|].
      split; [|intros; discriminate]. intros ?? _.
      split; [apply times_self|]. split; [done|].
      split; [|done].
      by rewrite app_comm_cons, last_snoc.
    + destruct Hex as [-> ->]. split; intros; discriminate.
Qed.

Lemma Connect_socket_ownership_witness :
  let ok := Connect 1000000 "/x" (-1) accepting in
  let bad := Connect 1000000 "/x" (-1) negative_index in
  let slip := Connect 1000000 "/x" (-1) index_at_size in
  times 3 (handed ok.1) = 1%nat ∧
  last bad.1 = Some (EvClose 3) ∧
  slip.2 = Undefined.
Proof.
  assert (3 ∉ [4]) as Hfresh.
  { intros H. apply list_elem_of_singleton in H. discriminate H. }
  intros ok bad slip.
  assert (ok.2 = Success 3 4) as Hok by (vm_compute; reflexivity).
  assert (bad.2 = Failure ProtocolError EIO) as Hbad by (vm_compute; reflexivity).
  split; [|split].
  - destruct (Connect_socket_ownership 1000000 "/x" (-1) accepting
                ok.1 ok.2 (surjective_pairing _)) as (_ & H & _).
    destruct (H eq_refl Hfresh) as [_ H'].
    exact (proj1 (proj2 (proj2 (H' 3 4 Hok)))).
  - destruct (Connect_socket_ownership 1000000 "/x" (-1) negative_index
                bad.1 bad.2 (surjective_pairing _)) as (_ & H & _).
    destruct (H eq_refl Hfresh) as [H' _].
    exact (proj1 (proj2 (proj2 (H' ProtocolError EIO Hbad)))).
  - destruct (Connect_socket_ownership 1000000 "/x" (-1) index_at_size
                slip.1 slip.2 (surjective_pairing _)) as (_ & _ & H).
    refine (proj1 (H _ eq_refl eq_refl _)).
    + vm_compute. do 4 apply list_elem_of_further. apply list_elem_of_here.
    + vm_compute. reflexivity.
Defined.

End Ownership.

(** ** The address given to [connect()] *)

Section Address.

(** Every [connect()] of a call is made on the call's socket, with the
    address filled in on lines 60-61. *)
Lemma Connect_addresses ticks_per_ms path timeout_ms env tr out remote :
  fill_sun_path (remote_stack env) path = Some remote →
  Connect ticks_per_ms path timeout_ms env = (tr, out) →
  ∀ fd sun_path ret,
    EvConnect fd sun_path ret ∈ tr → fd = socket_ret env ∧ sun_path = remote.
Proof.
  intros Hremote Hrun%Connect_has_run fd sun_path ret Hin.
  destruct Hrun as [Hv|Hv Hfill|remote' time_end evs ex tail out Hv Hfill Hdl Hloop Hex].
  - by apply list_elem_of_singleton in Hin.
  - by apply list_elem_of_singleton in Hin.
  - assert (remote' = remote) as -> by congruence.
    apply elem_of_cons in Hin as [?|Hin]; [done|].
    apply elem_of_app in Hin as [Hin|Hin].
    + pose proof (connect_loop_events _ _ _ _ _ _ _ _ _ _ _ Hloop) as Hevs.
      rewrite Forall_forall in Hevs. exact (Hevs _ Hin).
    + pose proof (run_exit_no_loop_call _ _ _ _ Hex) as Htail.
      rewrite Forall_forall in Htail. by specialize (Htail _ Hin).
Qed.

(** C9, as amended.  Whatever the length of the endpoint path, lines 60-61
    store only inside [remote.sun_path] and read only inside the path's own
    buffer; the array keeps its size and ends with a terminator; read as a
    C string it is the path cut to one byte less than the array; and every
    [connect()] of the call is given that array.  The call goes on with the
    cut path: the length of the path is not an error. *)
Theorem sun_path_copy_in_bounds (remote0 : list ascii) (path : string) :
  (0 < length remote0)%nat →
  ∃ sun_path,
    fill_sun_path remote0 path = Some sun_path ∧
    length sun_path = length remote0 ∧
    sun_path !! (length remote0 - 1)%nat = Some NUL ∧
    c_string sun_path = take (length remote0 - 1) (c_string (c_str path)) ∧
    ∀ ticks_per_ms timeout_ms env tr out,
      remote_stack env = remote0 →
      Connect ticks_per_ms path timeout_ms env = (tr, out) →
      ∀ fd remote ret, EvConnect fd remote ret ∈ tr → remote = sun_path.
Proof.
  intros Hpos.
  destruct (fill_sun_path_bounds remote0 path Hpos) as (Hlen & Hlast & Hstr).
  eexists. split; [by apply fill_sun_path_eq|].
  split; [exact Hlen|]. split; [exact Hlast|]. split; [exact Hstr|].
  intros ticks_per_ms timeout_ms env tr out <- HC fd remote ret Hin.
  eapply Connect_addresses in Hin as [_ ->]; [done| |exact HC].
  by apply fill_sun_path_eq.
Qed.

Lemma sun_path_copy_in_bounds_witness :
  ∃ sun_path,
    fill_sun_path (replicate 108 "U"%char) long_path = Some sun_path ∧
    length sun_path = 108%nat ∧
    sun_path !! 107%nat = Some NUL.
Proof.
  destruct (sun_path_copy_in_bounds (replicate 108 "U"%char) long_path)
    as (sun_path & Hfill & Hlen & Hlast & _).
  - rewrite length_replicate. lia.
  - exists sun_path. split; [exact Hfill|]. split; [exact Hlen|exact Hlast].
Defined.

(** C9 as stated fails on the code: with a path longer than the array the
    call does not fail on that account; where the peer accepts, it
    succeeds. *)
Lemma long_path_connects :
  (108 < String.length long_path)%nat ∧
  (Connect 1000000 long_path (-1) accepting).2 = Success 3 4.
Proof. split; [vm_compute; lia|vm_compute; reflexivity]. Qed.

End Address.

(** * Further properties *)

Import Observe.

(** ** More on the resolver and the factory *)

Section ResolverMore.

(** X1.  Resolving a resolved path changes nothing, so a factory created
    from the path of another factory has the same path. *)
Theorem GetEndpointPath_idempotent (name : string) :
  GetEndpointPath (GetEndpointPath name) = GetEndpointPath name ∧
  Factory.Create (Factory.endpoint_path_ (Factory.Create name)) =
    Factory.Create name.
Proof.
  assert (GetEndpointPath (GetEndpointPath name) = GetEndpointPath name) as H.
  { destruct name as [|c rest]; [done|]. cbn [GetEndpointPath].
    destruct (Ascii.eqb c "/") eqn:Hc; [|done].
    cbn [GetEndpointPath]. by rewrite Hc. }
  split; [done|]. unfold Factory.Create, Factory.construct.
  cbn [Factory.endpoint_path_]. by rewrite H.
Qed.

(** X2.  Two names resolve to the same path only if they are equal or one
    is the other under the root: the resolver maps no two relative names,
    and no two absolute names, to one endpoint. *)
Theorem GetEndpointPath_aliases (a b : string) :
  GetEndpointPath a = GetEndpointPath b →
  a = b ∨ a = "/dev/socket/pdx/" +:+ b ∨ b = "/dev/socket/pdx/" +:+ a.
Proof.
  destruct a as [|ca ra], b as [|cb rb]; cbn [GetEndpointPath].
  - by left.
  - destruct (Ascii.eqb cb "/"); discriminate.
  - destruct (Ascii.eqb ca "/"); discriminate.
  - destruct (Ascii.eqb ca "/"), (Ascii.eqb cb "/"); cbn.
    + intros ->. by left.
    + intros ->. right. by left.
    + intros <-. right. by right.
    + intros [= -> ->]. by left.
Qed.

Lemma GetEndpointPath_aliases_witness :
  "/dev/socket/pdx/foo" = "foo" ∨
  "/dev/socket/pdx/foo" = "/dev/socket/pdx/" +:+ "foo" ∨
  "foo" = "/dev/socket/pdx/" +:+ "/dev/socket/pdx/foo".
Proof.
  apply (GetEndpointPath_aliases "/dev/socket/pdx/foo" "foo"). reflexivity.
Defined.

End ResolverMore.

(** ** More on the copy into [sun_path] *)

Section SunPathMore.

Lemma fill_sun_path_empty (path : string) : fill_sun_path [] path = None.
Proof. reflexivity. Qed.

(** X4.  The bytes [remote.sun_path] held before the copy do not reach
    [connect()]: the array after lines 60-61 depends on the path and on the
    size of the array only. *)
Theorem fill_sun_path_ignores_stack (stack1 stack2 : list ascii) (path : string) :
  length stack1 = length stack2 →
  fill_sun_path stack1 path = fill_sun_path stack2 path.
Proof.
  intros Hlen. destruct stack1 as [|c1 s1], stack2 as [|c2 s2];
    try discriminate; [done|].
  rewrite !fill_sun_path_eq by (cbn; lia). by rewrite Hlen.
Qed.

Lemma fill_sun_path_ignores_stack_witness :
  fill_sun_path (replicate 108 "U"%char) "/dev/socket/pdx/foo" =
  fill_sun_path (replicate 108 "V"%char) "/dev/socket/pdx/foo".
Proof.
  apply fill_sun_path_ignores_stack. reflexivity.
Defined.

Lemma length_list_ascii (s : string) :
  length (list_ascii_of_string s) = String.length s.
Proof. induction s as [|c s IH]; [done|]. cbn. by rewrite IH. Qed.

Lemma c_string_c_str (path : string) :
  NUL ∉ list_ascii_of_string path →
  c_string (c_str path) = list_ascii_of_string path.
Proof. intros H. unfold c_str. by apply c_string_app_NUL. Qed.

(** X5.  A path without a NUL character that is shorter than the array is
    copied whole: read back as a C string, [sun_path] is the path. *)
Theorem fill_sun_path_exact (remote0 : list ascii) (path : string) :
  NUL ∉ list_ascii_of_string path →
  (String.length path < length remote0)%nat →
  ∃ sun_path,
    fill_sun_path remote0 path = Some sun_path ∧
    string_of_list_ascii (c_string sun_path) = path.
Proof.
  intros Hnul Hlen.
  assert (0 < length remote0)%nat as Hpos by lia.
  destruct (fill_sun_path_bounds remote0 path Hpos) as (_ & _ & Hstr).
  eexists. split; [by apply fill_sun_path_eq|].
  rewrite Hstr, c_string_c_str by done.
  rewrite take_ge; [apply string_of_list_ascii_of_string|].
  rewrite length_list_ascii. lia.
Qed.

Lemma fill_sun_path_exact_witness :
  ∃ sun_path,
    fill_sun_path (replicate 108 "U"%char) "/dev/socket/pdx/foo" = Some sun_path ∧
    string_of_list_ascii (c_string sun_path) = "/dev/socket/pdx/foo".
Proof.
  apply fill_sun_path_exact.
  - apply (bool_decide_unpack
             (NUL ∉ list_ascii_of_string "/dev/socket/pdx/foo")).
    vm_compute. exact I.
  - vm_compute. lia.
Defined.

End SunPathMore.

(** ** More on whole calls *)

Section CallsMore.

(** The calls made inside the loop are the loop's: on the call's path,
    socket and address. *)
Lemma Connect_loop_calls ticks_per_ms path timeout_ms env tr out e :
  Connect ticks_per_ms path timeout_ms env = (tr, out) →
  e ∈ tr → is_loop_call e = true →
  ∃ remote,
    fill_sun_path (remote_stack env) path = Some remote ∧
    loop_event path remote (socket_ret env) e.
Proof.
  intros Hrun%Connect_has_run Hin Hcall.
  destruct Hrun as [Hv|Hv Hfill|remote time_end evs ex tail out Hv Hfill Hdl Hloop Hex].
  - apply list_elem_of_singleton in Hin as ->. discriminate.
  - apply list_elem_of_singleton in Hin as ->. discriminate.
  - exists remote. split; [done|].
    apply elem_of_cons in Hin as [->|Hin]; [discriminate|].
    apply elem_of_app in Hin as [Hin|Hin].
    + pose proof (connect_loop_events _ _ _ _ _ _ _ _ _ _ _ Hloop) as Hevs.
      rewrite Forall_forall in Hevs. exact (Hevs _ Hin).
    + pose proof (run_exit_no_loop_call _ _ _ _ Hex) as Htail.
      rewrite Forall_forall in Htail. specialize (Htail _ Hin). congruence.
Qed.

(** X3.  A factory waits for, and connects to, the resolved form of the
    name it was created from: every endpoint wait of its [Connect] is on
    [GetEndpointPath name], and every [connect()] is given that path as a C
    string, cut to one byte less than [sun_path]. *)
Theorem Factory_Connect_uses_resolved_path
    ticks_per_ms name timeout_ms env tr out :
  Factory.Connect ticks_per_ms (Factory.Create name) timeout_ms env = (tr, out) →
  (∀ path timeout,
     EvWaitForEndpoint path timeout ∈ tr → path = GetEndpointPath name) ∧
  (∀ fd sun_path ret,
     EvConnect fd sun_path ret ∈ tr →
     c_string sun_path =
       take (length (remote_stack env) - 1)
         (c_string (c_str (GetEndpointPath name)))).
Proof.
  unfold Factory.Connect, Factory.Create, Factory.construct.
  cbn [Factory.endpoint_path_]. intros HC. split.
  - intros path timeout Hin.
    destruct (Connect_loop_calls _ _ _ _ _ _ _ HC Hin eq_refl)
      as (remote & _ & Hev). exact Hev.
  - intros fd sun_path ret Hin.
    destruct (Connect_loop_calls _ _ _ _ _ _ _ HC Hin eq_refl)
      as (remote & Hfill & _ & ->).
    destruct (remote_stack env) as [|c stack] eqn:Hstack;
      [by rewrite fill_sun_path_empty in Hfill|].
    rewrite fill_sun_path_eq in Hfill by (cbn; lia).
    injection Hfill as <-.
    by apply (fill_sun_path_bounds (c :: stack)); cbn; lia.
Qed.

Lemma Factory_Connect_uses_resolved_path_witness :
  c_string (default [] (fill_sun_path (remote_stack accepting)
                          "/dev/socket/pdx/foo")) =
    take (length (remote_stack accepting) - 1)
      (c_string (c_str (GetEndpointPath "foo"))).
Proof.
  apply (proj2 (Factory_Connect_uses_resolved_path 1000000 "foo" (-1) accepting
                  _ _ (surjective_pairing _)) 3 _ SysOk).
  vm_compute. apply list_elem_of_further, list_elem_of_further.
  apply list_elem_of_here.
Defined.

(** The events of the handshake are on the socket it was given, and none
    is a [socket()] call. *)
Lemma handshake_on_socket fd env :
  Forall (λ e, is_socket e = false ∧ ∀ fd', fd_of e = Some fd' → fd' = fd)
    (handshake fd env).1.
Proof.
  assert (∀ h, Forall (λ e, is_socket e = false ∧
                            ∀ fd', fd_of e = Some fd' → fd' = fd) (destroy h))
    as Hd.
  { intros h. unfold destroy. destruct (IsValid h); repeat constructor; done. }
  assert (∀ hs, Forall (λ e, is_socket e = false ∧
                             ∀ fd', fd_of e = Some fd' → fd' = fd)
                  (destroy_all hs)) as Hda.
  { induction hs as [|h hs IH]; [constructor|]. cbn [destroy_all flat_map].
    apply Forall_app. split; [apply Hd|done]. }
  assert (∀ e l, is_socket e = false → fd_of e = Some fd →
                 Forall (λ e, is_socket e = false ∧
                              ∀ fd', fd_of e = Some fd' → fd' = fd) l →
                 Forall (λ e, is_socket e = false ∧
                              ∀ fd', fd_of e = Some fd' → fd' = fd) (e :: l))
    as Hc.
  { intros e l Hs Hf Hl. constructor; [|done]. split; [done|]. congruence. }
  unfold handshake.
  destruct (send_status env) as [[]|e1]; cbn [fst]; [|by apply Hc].
  destruct (recv_status env) as [[]|e2]; cbn [fst].
  2:{ do 2 (apply Hc; [done..|]). apply Forall_app. split; [apply Hda|apply Hd]. }
  destruct (_ || _); cbn [fst].
  { do 2 (apply Hc; [done..|]). apply Forall_app. split; [apply Hda|apply Hd]. }
  destruct (_ !! _); cbn [fst move_from].
  - do 3 (apply Hc; [done..|]).
    apply Forall_app. split; [apply Hd|].
    apply Forall_app. split; [apply Hda|apply Hd].
  - do 2 (apply Hc; [done..|]). constructor.
Qed.

(** X6.  One socket serves the whole call: [socket()] is called once, first,
    and every [connect()], the send, the receive and the hand-over to the
    registry are on the descriptor it returned, however many times the loop
    goes round. *)
Theorem Connect_one_socket ticks_per_ms path timeout_ms env tr out :
  Connect ticks_per_ms path timeout_ms env = (tr, out) →
  ∃ rest,
    tr = EvSocket (socket_ret env) :: rest ∧
    count is_socket rest = 0%nat ∧
    ∀ e fd, e ∈ tr → fd_of e = Some fd → fd = socket_ret env.
Proof.
  intros Hrun%Connect_has_run.
  assert (∀ l, Forall (λ e, is_socket e = false ∧
                            ∀ fd', fd_of e = Some fd' → fd' = socket_ret env) l →
               count is_socket l = 0%nat ∧
               ∀ e fd, e ∈ EvSocket (socket_ret env) :: l →
                       fd_of e = Some fd → fd = socket_ret env) as Hgen.
  { intros l Hl. split.
    - unfold count. induction Hl as [|e l [He _] _ IH]; [done|].
      cbn [List.filter]. by rewrite He.
    - intros e fd [->|Hin]%elem_of_cons; [by intros [= <-]|].
      rewrite Forall_forall in Hl. by apply Hl. }
  destruct Hrun as [Hv|Hv Hfill|remote time_end evs ex tail out Hv Hfill Hdl Hloop Hex];
    eexists; (split; [reflexivity|]); apply Hgen; [constructor..|].
  apply Forall_app. split.
  - pose proof (connect_loop_events _ _ _ _ _ _ _ _ _ _ _ Hloop) as Hevs.
    eapply Forall_impl; [exact Hevs|]. intros [] He; try done.
    cbn in He. destruct He as [-> _]. split; [done|]. by intros ? [= <-].
  - destruct ex as [? ?| |o|]; [| |destruct o|]; destruct Hex as [-> _];
      first [ apply handshake_on_socket | by repeat constructor ].
Qed.

End CallsMore.

Lemma Connect_one_socket_witness :
  ∃ rest,
    (Connect 1000000 "/x" 1000 refused_then_accepted).1 = EvSocket 3 :: rest ∧
    count is_socket rest = 0%nat.
Proof.
  destruct (Connect_one_socket 1000000 "/x" 1000 refused_then_accepted
              _ _ (surjective_pairing _)) as (rest & Htr & Hcount & _).
  exists rest. split; [exact Htr|exact Hcount].
Defined.

Section HandshakeMore.

(** A list splits in one way at its only element that satisfies [p]. *)
Lemma split_at_only (p : event → bool) l1 x0 rest : ∀ pre x post,
  List.filter p l1 = [] → List.filter p rest = [] → p x = true →
  pre ++ x :: post = l1 ++ x0 :: rest →
  pre = l1 ∧ x = x0 ∧ post = rest.
Proof.
  induction l1 as [|a l1 IH]; intros pre x post Hl1 Hrest Hx Heq.
  - destruct pre as [|b pre]; cbn in Heq.
    + by injection Heq as -> ->.
    + injection Heq as -> Heq. subst rest.
      rewrite List.filter_app in Hrest. cbn in Hrest. rewrite Hx in Hrest.
      by apply app_eq_nil in Hrest as [_ ?].
  - cbn in Hl1. destruct (p a) eqn:Ha; [discriminate|].
    destruct pre as [|b pre]; cbn in Heq.
    + injection Heq as -> _. congruence.
    + injection Heq as -> Heq.
      destruct (IH _ _ _ Hl1 Hrest Hx Heq) as (-> & -> & ->). done.
Qed.

(** The loop leaves for the handshake right after a [connect()] that
    succeeded. *)
Lemma connect_loop_connected
    ticks_per_ms path remote fd use_timeout time_end its now m evs :
  connect_loop ticks_per_ms path remote fd use_timeout time_end now m its =
    (evs, Connected) →
  ∃ evs', evs = evs' ++ [EvConnect fd remote SysOk].
Proof.
  revert its now m evs. 
  assert (∀ its now m evs ex,
    connect_loop ticks_per_ms path remote fd use_timeout time_end now m its =
      (evs, ex) →
    ex = Connected → ∃ evs', evs = evs' ++ [EvConnect fd remote SysOk]) as H.
  { apply (connect_loop_rule _ _ _ _ _ _ (λ _ _ _ evs ex,
      ex = Connected → ∃ evs', evs = evs' ++ [EvConnect fd remote SysOk])).
    - done.
    - done.
    - intros now m timeout it its evs ex _ Hshape _ ->.
      inversion Hshape; subst. by eexists (_ :: _).
    - intros now m timeout it its evs now' m' evs' ex' _ _ _ IH Hex.
      destruct (IH Hex) as [evs'' ->]. exists (evs ++ evs'').
      by rewrite app_assoc. }
  intros its now m evs Hloop. by eapply H.
Qed.

(** The handshake begins with the one send of the call. *)
Lemma handshake_begins_with_send fd env :
  ∃ rest,
    (handshake fd env).1 =
      EvSendData fd (InitRequest CHANNEL_OPEN 0 0 false) :: rest ∧
    Forall (λ e, is_loop_call e = false ∧ is_send e = false) rest.
Proof.
  assert (∀ h, Forall (λ e, is_loop_call e = false ∧ is_send e = false)
                 (destroy h)) as Hd.
  { intros h. unfold destroy. destruct (IsValid h); repeat constructor. }
  assert (∀ hs, Forall (λ e, is_loop_call e = false ∧ is_send e = false)
                  (destroy_all hs)) as Hda.
  { induction hs as [|h hs IH]; [constructor|]. cbn [destroy_all flat_map].
    apply Forall_app. split; [apply Hd|done]. }
  unfold handshake.
  destruct (send_status env) as [[]|e1]; cbn [fst];
    [|eexists; split; [reflexivity|apply Hd]].
  destruct (recv_status env) as [[]|e2]; cbn [fst].
  2:{ eexists. split; [reflexivity|]. constructor; [done|].
      apply Forall_app. split; [apply Hda|apply Hd]. }
  destruct (_ || _); cbn [fst].
  { eexists. split; [reflexivity|]. constructor; [done|].
    apply Forall_app. split; [apply Hda|apply Hd]. }
  destruct (_ !! _); cbn [fst move_from]; eexists; (split; [reflexivity|]).
  - do 2 (constructor; [done|]).
    apply Forall_app. split; [apply Hd|].
    apply Forall_app. split; [apply Hda|apply Hd].
  - by repeat constructor.
Qed.

(** X7.  The handshake is entered once and is not retried: the request is
    sent on the call's socket right after a [connect()] that succeeded, it
    is the [CHANNEL_OPEN] request with no payload, and after it the call
    neither waits, connects, sleeps nor sends again. *)
Theorem Connect_handshake_follows_connect
    ticks_per_ms path timeout_ms env tr out :
  Connect ticks_per_ms path timeout_ms env = (tr, out) →
  ∀ pre fd request post,
    tr = pre ++ EvSendData fd request :: post →
    fd = socket_ret env ∧
    request = InitRequest CHANNEL_OPEN 0 0 false ∧
    (∃ remote, last pre = Some (EvConnect fd remote SysOk)) ∧
    Forall (λ e, is_loop_call e = false ∧ is_send e = false) post.
Proof.
  intros Hrun%Connect_has_run pre fd request post Htr.
  destruct Hrun as [Hv|Hv Hfill|remote time_end evs ex tail out Hv Hfill Hdl Hloop Hex].
  - destruct pre as [|? [|? ?]]; discriminate.
  - destruct pre as [|? [|? ?]]; discriminate.
  - pose proof (connect_loop_events _ _ _ _ _ _ _ _ _ _ _ Hloop) as Hevs.
    assert (List.filter is_send (EvSocket (socket_ret env) :: evs) = [])
      as Hquiet.
    { cbn. clear -Hevs. induction Hevs as [|e l He _ IH]; [done|].
      cbn. rewrite IH. by destruct e. }
    destruct ex as [? ?| |o|];
      [destruct Hex as [-> _]..|apply run_exit_return in Hex as [_ ->]|
       destruct Hex as [-> _]].
    + rewrite app_nil_r in Htr.
      assert (List.filter is_send (pre ++ EvSendData fd request :: post) = [])
        as Hno by (rewrite <- Htr; exact Hquiet).
      rewrite List.filter_app in Hno. cbn in Hno.
      by apply app_eq_nil in Hno as [_ ?].
    + destruct (handshake_begins_with_send (socket_ret env) env)
        as (rest & Hh & Hrest).
      rewrite Hh, app_comm_cons in Htr. symmetry in Htr.
      apply (split_at_only is_send) in Htr as (-> & [= -> ->] & ->);
        [|exact Hquiet| |done].
      2:{ clear -Hrest. induction Hrest as [|e l [_ He] _ IH]; [done|].
          cbn. by rewrite He. }
      split; [done|]. split; [done|]. split; [|done].
      destruct (connect_loop_connected _ _ _ _ _ _ _ _ _ _ Hloop) as [evs' ->].
      exists remote. by rewrite app_comm_cons, last_snoc.
    + assert (List.filter is_send (pre ++ EvSendData fd request :: post) = [])
        as Hno.
      { rewrite <- Htr, app_comm_cons, List.filter_app, Hquiet. by destruct o. }
      rewrite List.filter_app in Hno. cbn in Hno.
      by apply app_eq_nil in Hno as [_ ?].
    + rewrite app_nil_r in Htr.
      assert (List.filter is_send (pre ++ EvSendData fd request :: post) = [])
        as Hno by (rewrite <- Htr; exact Hquiet).
      rewrite List.filter_app in Hno. cbn in Hno.
      by apply app_eq_nil in Hno as [_ ?].
Qed.

Lemma Connect_handshake_follows_connect_witness :
  let tr := (Connect 1000000 "/x" 1000 refused_then_accepted).1 in
  ∃ remote, last (take 6 tr) = Some (EvConnect 3 remote SysOk).
Proof.
  intros tr.
  pose (remote := default [] (fill_sun_path (replicate 108 "U"%char) "/x")).
  refine (proj1 (proj2 (proj2
    (Connect_handshake_follows_connect 1000000 "/x" 1000 refused_then_accepted
       tr _ (surjective_pairing _) (take 6 tr) 3
       (InitRequest CHANNEL_OPEN 0 0 false) (drop 7 tr) _)))).
  vm_compute. reflexivity.
Defined.

End HandshakeMore.

Section OutcomesMore.

(** What the handshake has seen when it succeeds. *)
Lemma handshake_success fd env d v :
  (handshake fd env).2 = Success d v →
  d = fd ∧
  send_status env = Ok () ∧ recv_status env = Ok () ∧
  0 ≤ ret_code (recv_response env) ∧
  file_descriptors (recv_response env) !! Z.to_nat (ret_code (recv_response env)) =
    Some v ∧
  EvCreateHandle d v ∈ (handshake fd env).1.
Proof.
  unfold handshake.
  destruct (send_status env) as [[]|e1]; [|discriminate].
  destruct (recv_status env) as [[]|e2]; [|discriminate].
  destruct (Z.ltb_spec (ret_code (recv_response env)) 0) as [|Hnn];
    [discriminate|].
  destruct (_ <? _); cbn [orb]; [discriminate|].
  destruct (_ !! _) as [slot|]; [|discriminate].
  cbn [fst snd move_from]. intros [= <- <-].
  repeat split; try done. do 2 apply list_elem_of_further. apply list_elem_of_here.
Qed.

(** X8.  Apart from the response whose return code equals the number of
    its descriptors, where line 130 indexes past the end (C1), [Connect]
    succeeds only through the whole sequence: the socket was created, a
    [connect()] on it succeeded, send and receive succeeded, the return code
    is a valid index, and the channel is made of the call's socket and the
    received descriptor at that index. *)
Theorem Connect_success ticks_per_ms path timeout_ms env tr d v :
  ret_code (recv_response env) ≠
    Z.of_nat (length (file_descriptors (recv_response env))) →
  Connect ticks_per_ms path timeout_ms env = (tr, Success d v) →
  d = socket_ret env ∧ IsValid d = true ∧
  (∃ remote, EvConnect d remote SysOk ∈ tr) ∧
  send_status env = Ok () ∧ recv_status env = Ok () ∧
  0 ≤ ret_code (recv_response env) <
    Z.of_nat (length (file_descriptors (recv_response env))) ∧
  file_descriptors (recv_response env) !! Z.to_nat (ret_code (recv_response env)) =
    Some v ∧
  EvCreateHandle d v ∈ tr.
Proof.
  intros _ Hrun%Connect_has_run.
  inversion Hrun as [Hv|Hv Hfill|remote time_end evs ex tail out Hv Hfill Hdl Hloop Hex];
    subst.
  destruct ex as [? ?| |o|].
  - by destruct Hex.
  - destruct Hex as [-> Hout]. symmetry in Hout.
    apply handshake_success in Hout as (-> & Hs & Hr & Hnn & Hslot & Hin).
    destruct (connect_loop_connected _ _ _ _ _ _ _ _ _ _ Hloop) as [evs' ->].
    split; [done|]. split; [done|]. split.
    { exists remote. apply list_elem_of_further, elem_of_app. left.
      apply elem_of_app. right. apply list_elem_of_here. }
    split; [done|]. split; [done|]. split.
    { split; [done|]. apply lookup_lt_Some in Hslot. lia. }
    split; [done|].
    apply list_elem_of_further, elem_of_app. by right.
  - apply run_exit_return in Hex as [<- _].
    by destruct (connect_loop_returns _ _ _ _ _ _ _ _ _ _ _ Hloop _ eq_refl)
      as [?|(k & e & ? & _)].
  - by destruct Hex.
Qed.

Lemma Connect_success_witness :
  EvCreateHandle 3 4 ∈ (Connect 1000000 "/x" 1000 refused_then_accepted).1.
Proof.
  refine (proj2 (proj2 (proj2 (proj2 (proj2 (proj2 (proj2
    (Connect_success 1000000 "/x" 1000 refused_then_accepted
       (Connect 1000000 "/x" 1000 refused_then_accepted).1 3 4
       _ eq_refl)))))))).
  vm_compute. discriminate.
Defined.

(** X9.  Every error number [Connect] returns is [ETIMEDOUT] from its own
    deadline (only when a deadline was given), [EIO] from its own check of
    the response, or the error number a collaborator answered with,
    unchanged. *)
Theorem Connect_errors_are_passed_on ticks_per_ms path timeout_ms env tr out error :
  Connect ticks_per_ms path timeout_ms env = (tr, out) →
  returned out = Some (ErrorStatus error) →
  (error = ETIMEDOUT ∧ 0 ≤ timeout_ms) ∨ error = EIO ∨ reports env error.
Proof.
  intros HC Hret. destruct out as [? ?|kind error'| |]; try discriminate.
  injection Hret as ->.
  apply Connect_error_origin in HC
    as [(_ & ? & ?)|[(_ & ?)|(_ & _ & ?)]]; auto.
Qed.

Lemma Connect_errors_are_passed_on_witness :
  (113 = ETIMEDOUT ∧ 0 ≤ -1) ∨ 113 = EIO ∨ reports unreachable 113.
Proof.
  exact (Connect_errors_are_passed_on 1000000 "/x" (-1) unreachable
           (Connect 1000000 "/x" (-1) unreachable).1
           (Connect 1000000 "/x" (-1) unreachable).2 113
           (surjective_pairing _) eq_refl).
Defined.

(** The loop does not run into undefined behaviour when the subtractions
    of its deadline checks fit 64 bits. *)
Lemma connect_loop_defined
    ticks_per_ms path remote fd use_timeout time_end its now m evs ex :
  connect_loop ticks_per_ms path remote fd use_timeout time_end now m its =
    (evs, ex) →
  (use_timeout = true →
   in_int64 (time_end - now) = true ∧
   forallb (λ it, in_int64 (time_end - clock_after it)) its = true) →
  ex ≠ Return Undefined.
Proof.
  revert its now m evs ex.
  apply (connect_loop_rule _ _ _ _ _ _ (λ now _ its _ ex,
    (use_timeout = true →
     in_int64 (time_end - now) = true ∧
     forallb (λ it, in_int64 (time_end - clock_after it)) its = true) →
    ex ≠ Return Undefined)).
  - intros now m its (Hu & Hexit)%remaining_timeout_None Hfits.
    destruct (Hfits Hu) as [Hnow _].
    destruct Hexit as [[_ ?]|[-> _]]; congruence.
  - done.
  - intros now m timeout it its evs ex _ Hshape _ _ ->. inversion Hshape.
  - intros now m timeout it its evs now' m' evs' ex' _ Hshape _ IH Hfits.
    apply IH. intros Hu. destruct (Hfits Hu) as [_ Hall].
    cbn [forallb] in Hall. apply andb_true_iff in Hall as [Hit Hall].
    split; [|done].
    assert (now' = clock_after it) as ->; [|done].
    rewrite Hu in Hshape. by inversion Hshape.
Qed.

(** X12.  Apart from a signed overflow in the arithmetic of the deadline,
    the one operation with undefined behaviour is the access at a return
    code equal to the number of descriptors: if the deadline and the
    remaining times fit 64 bits, [sun_path] has at least one byte and the
    return code is an [int], a call runs into undefined behaviour only when
    send and receive succeeded and the return code is that number. *)
Theorem Connect_undefined_only_at_count ticks_per_ms path timeout_ms env tr :
  Connect ticks_per_ms path timeout_ms env = (tr, Undefined) →
  arithmetic_fits ticks_per_ms timeout_ms env = true →
  remote_stack env ≠ [] →
  - 2^31 ≤ ret_code (recv_response env) < 2^31 →
  send_status env = Ok () ∧ recv_status env = Ok () ∧
  ret_code (recv_response env) =
    Z.of_nat (length (file_descriptors (recv_response env))).
Proof.
  intros Hrun%Connect_has_run Hfits Hstack Hint.
  inversion Hrun as [Hv|Hv Hfill|remote time_end evs ex tail out Hv Hfill Hdl Hloop Hex];
    subst.
  - destruct Hfill as [Hfill|Hdl].
    + destruct (remote_stack env) as [|c stack]; [done|].
      by rewrite fill_sun_path_eq in Hfill by (cbn; lia).
    + unfold arithmetic_fits in Hfits. by rewrite Hdl in Hfits.
  - destruct ex as [? ?| |o|].
    + by destruct Hex.
    + destruct Hex as [_ Hout]. symmetry in Hout. revert Hout. unfold handshake.
      destruct (send_status env) as [[]|e1]; [|discriminate].
      destruct (recv_status env) as [[]|e2]; [|discriminate].
      destruct (Z.ltb_spec (ret_code (recv_response env)) 0) as [|Hnn];
        [discriminate|].
      rewrite to_size_t_small by lia.
      destruct (Z.ltb_spec
                  (Z.of_nat (length (file_descriptors (recv_response env))))
                  (ret_code (recv_response env))) as [|Hle];
        cbn [orb]; [discriminate|].
      destruct (_ !! _) as [slot|] eqn:Hslot; [discriminate|].
      intros _. apply lookup_ge_None in Hslot. split; [done|]. split; [done|].
      lia.
    + apply run_exit_return in Hex as [<- _].
      destruct (connect_loop_defined _ _ _ _ _ _ _ _ _ _ _ Hloop); [|done].
      intros Hu%Z.leb_le. unfold arithmetic_fits in Hfits.
      rewrite Hdl in Hfits. apply deadline_Some in Hdl as (-> & Hticks & _).
      replace (timeout_ms <? 0) with false in Hfits
        by (symmetry; apply Z.ltb_ge; lia).
      split; [|done].
      by replace (clock_start env + timeout_ms * ticks_per_ms - clock_start env)
        with (timeout_ms * ticks_per_ms) by lia.
    + by destruct Hex.
Qed.

Lemma Connect_undefined_only_at_count_witness :
  ret_code (recv_response index_at_size) =
    Z.of_nat (length (file_descriptors (recv_response index_at_size))).
Proof.
  refine (proj2 (proj2
    (Connect_undefined_only_at_count 1000000 "/x" 1000 index_at_size
       (Connect 1000000 "/x" 1000 index_at_size).1 eq_refl eq_refl _ _))).
  - discriminate.
  - vm_compute. split; [discriminate|reflexivity].
Defined.

End OutcomesMore.

Section TimingMore.

Lemma wait_timeouts_Forall (P : Z → Prop) tr :
  Forall P (wait_timeouts tr) → Forall (wait_timeout_is P) tr.
Proof.
  induction tr as [|e tr IH]; [constructor|].
  unfold wait_timeouts. cbn [flat_map]. intros H.
  apply Forall_app in H as [He Htr]. constructor; [|by apply IH].
  destruct e; try done. by apply Forall_cons in He as [? _].
Qed.

(** X10.  With a deadline whose arithmetic fits 64 bits and a clock that
    does not go back, no endpoint wait is given more than the caller's
    [timeout_ms], nor less than 0. *)
Theorem Connect_wait_within_budget ticks_per_ms path timeout_ms env tr out :
  0 < ticks_per_ms →
  0 ≤ timeout_ms →
  arithmetic_fits ticks_per_ms timeout_ms env = true →
  Forall (λ it, clock_start env ≤ clock_after it) (iterations env) →
  Connect ticks_per_ms path timeout_ms env = (tr, out) →
  Forall (wait_timeout_is (λ t, 0 ≤ t ≤ timeout_ms)) tr.
Proof.
  intros Hpos Hnn _ Hclock HC.
  pose proof (Connect_waits _ _ _ _ _ _ HC) as [Hw _].
  replace (0 <=? timeout_ms) with true in Hw by (symmetry; by apply Z.leb_le).
  pose proof (Connect_wait_timeouts _ _ _ _ _ _ Hnn HC) as Heq. cbv zeta in Heq.
  assert (Forall (λ t, t ≤ timeout_ms) (wait_timeouts tr)) as Hle.
  { rewrite Heq. apply Forall_fmap.
    assert (Forall (λ now, clock_start env ≤ now)
              (clock_start env :: (clock_after <$> iterations env))) as Hnows.
    { constructor; [lia|]. by apply Forall_fmap. }
    eapply Forall_impl; [by apply Forall_take|].
    intros now Hnow. cbn in Hnow |- *.
    transitivity (Z.quot (timeout_ms * ticks_per_ms) ticks_per_ms).
    - apply Z.quot_le_mono; lia.
    - rewrite Z.quot_mul by lia. done. }
  apply wait_timeouts_Forall in Hle.
  rewrite Forall_forall in Hw, Hle. apply Forall_forall. intros e He.
  specialize (Hw _ He). specialize (Hle _ He).
  destruct e; cbn in *; try done; lia.
Qed.

Lemma Connect_wait_within_budget_witness :
  Forall (wait_timeout_is (λ t, 0 ≤ t ≤ 1000))
    (Connect 1000000 "/x" 1000 refused_then_accepted).1.
Proof.
  apply (Connect_wait_within_budget 1000000 "/x" 1000 refused_then_accepted
           _ (Connect 1000000 "/x" 1000 refused_then_accepted).2).
  - lia.
  - lia.
  - reflexivity.
  - repeat constructor; vm_compute; discriminate.
  - apply surjective_pairing.
Defined.

End TimingMore.

Section BackoffMore.

Lemma count_app p tr1 tr2 : count p (tr1 ++ tr2) = (count p tr1 + count p tr2)%nat.
Proof. unfold count. by rewrite List.filter_app, length_app. Qed.

Lemma count_interrupted p remote fd l :
  p (EvConnect fd remote (SysErr EINTR)) = false →
  interrupted remote fd l → count p l = 0%nat.
Proof.
  intros Hp. unfold interrupted, count.
  induction 1 as [|e l -> _ IH]; [done|]. cbn [List.filter]. by rewrite Hp.
Qed.

Lemma count_no_loop_call p l :
  (∀ e, p e = true → is_loop_call e = true) →
  Forall (λ e, is_loop_call e = false) l → count p l = 0%nat.
Proof.
  intros Hp. unfold count. induction 1 as [|e l He _ IH]; [done|].
  cbn [List.filter]. destruct (p e) eqn:Hpe; [|done].
  apply Hp in Hpe. congruence.
Qed.

Ltac count_tac :=
  unfold count; cbn -[Nat.min];
  repeat match goal with
         | |- context [Z.eqb ?a ?b] => destruct (Z.eqb_spec a b); try congruence
         end;
  cbn -[Nat.min]; lia.

(** The sleeps of the loop: one for each refusal, and one for each denial
    the budget still covers. *)
Lemma connect_loop_sleeps
    ticks_per_ms path remote fd use_timeout time_end its now m evs ex :
  connect_loop ticks_per_ms path remote fd use_timeout time_end now m its =
    (evs, ex) →
  0 ≤ m ≤ 5 →
  count is_sleep evs =
    (count is_refused_connect evs +
     Nat.min (count is_eacces_connect evs) (Z.to_nat m))%nat.
Proof.
  revert its now m evs ex.
  apply (connect_loop_rule _ _ _ _ _ _ (λ _ m _ evs _, 0 ≤ m ≤ 5 →
    count is_sleep evs =
      (count is_refused_connect evs +
       Nat.min (count is_eacces_connect evs) (Z.to_nat m))%nat)).
  - done.
  - done.
  - intros now m timeout it its evs ex _ Hshape Hex Hm.
    inversion Hshape as [ | l Hl | l Hl | l Hl | l Hl Hpos | l Hl Hneg Hin
                         | l errno Hl Herr | l errno Hl H1 H2 H3 H4 Hin ];
      subst; try (by destruct (Hex _ _ eq_refl));
      try (change (?e :: l ++ ?l0) with ([e] ++ l ++ l0));
      try (change (?e :: l) with ([e] ++ l));
      rewrite ?count_app, ?(count_interrupted _ _ _ l) by done;
      try (destruct Herr as [-> | ->]); count_tac.
  - intros now m timeout it its evs now' m' evs' ex' _ Hshape _ IH Hm.
    rewrite !count_app.
    inversion Hshape as [ | l Hl | l Hl | l Hl | l Hl Hpos | l Hl Hneg Hin
                         | l errno Hl Herr | l errno Hl H1 H2 H3 H4 Hin ];
      subst;
      change (?e :: l ++ ?l0) with ([e] ++ l ++ l0);
      rewrite ?count_app, ?(count_interrupted _ _ _ l) by done;
      try rewrite wrap_int_small in IH by lia;
      rewrite IH by lia;
      try (destruct Herr as [-> | ->]); count_tac.
Qed.

(** X11.  The loop sleeps once for each [connect()] that is refused and once
    for each of the first five that are denied, and for nothing else; each
    sleep is of 100 ms. *)
Theorem Connect_sleeps ticks_per_ms path timeout_ms env tr out :
  Connect ticks_per_ms path timeout_ms env = (tr, out) →
  count is_sleep tr =
    (count is_refused_connect tr + Nat.min (count_eacces tr) 5)%nat ∧
  ∀ ms, EvSleep ms ∈ tr → ms = 100.
Proof.
  intros HC. split.
  - apply Connect_has_run in HC.
    destruct HC as [Hv|Hv Hfill|remote time_end evs ex tail out Hv Hfill Hdl Hloop Hex];
      [done..|].
    pose proof (run_exit_no_loop_call _ _ _ _ Hex) as Htail.
    change (count_eacces ?l) with (count is_eacces_connect l).
    change (?e :: evs ++ tail) with ([e] ++ evs ++ tail).
    rewrite !count_app.
    rewrite !(count_no_loop_call _ tail) by (done || by intros [| | ?? []| | | | |]).
    rewrite (connect_loop_sleeps _ _ _ _ _ _ _ _ _ _ _ Hloop) by lia.
    cbn. change (Z.to_nat 5) with 5%nat. lia.
  - intros ms Hin.
    by destruct (Connect_loop_calls _ _ _ _ _ _ _ HC Hin eq_refl) as (? & _ & ?).
Qed.

Lemma Connect_sleeps_witness :
  count is_sleep (Connect 1000000 "/x" (-1) denying).1 = 5%nat.
Proof.
  exact (proj1 (Connect_sleeps 1000000 "/x" (-1) denying _ _
                  (surjective_pairing _))).
Defined.

End BackoffMore.

Section FatalMore.

(** Events that are not a [connect()] failed with an error number that ends
    the call. *)
Local Abbreviation harmless := (λ e : event,
  match e with
  | EvConnect _ _ (SysErr errno) => retried_errno errno = true
  | _ => True
  end).

Lemma fatal_policy_quiet terminal l tr :
  Forall harmless l →
  fatal_policy terminal (l ++ tr) ↔ fatal_policy terminal tr.
Proof.
  induction 1 as [|e l He _ IH]; [done|]. cbn [app fatal_policy].
  rewrite IH. destruct e as [| |? ? [|errno]| | | | |]; try tauto.
  cbn in He. rewrite He. split; [tauto|]. intros H. split; [discriminate|done].
Qed.

Lemma fatal_policy_split terminal pre fd sun_path errno post :
  fatal_policy terminal (pre ++ EvConnect fd sun_path (SysErr errno) :: post) →
  retried_errno errno = false → terminal errno post.
Proof.
  induction pre as [|e pre IH]; cbn [app fatal_policy]; intros [H1 H2] Hf.
  - by apply H1.
  - by apply IH.
Qed.

Lemma fatal_policy_extend (terminal terminal' : Z → list event → Prop) tail :
  (∀ errno l, terminal errno l → terminal' errno (l ++ tail)) →
  Forall harmless tail →
  ∀ evs, fatal_policy terminal evs → fatal_policy terminal' (evs ++ tail).
Proof.
  intros Hterm Htail. induction evs as [|e evs IH]; cbn [app].
  - intros _. rewrite <- (app_nil_r tail). by apply fatal_policy_quiet.
  - cbn [fatal_policy]. intros [H1 H2]. split; [|by apply IH].
    destruct e as [| |? ? [|errno]| | | | |]; try done. intros Hf.
    by apply Hterm, H1.
Qed.

Lemma interrupted_harmless path timeout remote fd l :
  interrupted remote fd l →
  Forall harmless (EvWaitForEndpoint path timeout :: l).
Proof.
  intros Hl. constructor; [done|]. unfold interrupted in Hl.
  eapply Forall_impl; [exact Hl|]. by intros e ->.
Qed.

Lemma no_loop_call_harmless l :
  Forall (λ e, is_loop_call e = false) l → Forall harmless l.
Proof. intros H. eapply Forall_impl; [exact H|]. by intros []. Qed.

(** The loop keeps the rule: an error number that is not retried ends it. *)
Lemma connect_loop_fatal
    ticks_per_ms path remote fd use_timeout time_end its now m evs ex :
  connect_loop ticks_per_ms path remote fd use_timeout time_end now m its =
    (evs, ex) →
  fatal_policy
    (λ errno post, post = [] ∧ ex = Return (Failure ConnectError errno)) evs.
Proof.
  revert its now m evs ex.
  apply (connect_loop_rule _ _ _ _ _ _ (λ _ _ _ evs ex,
    fatal_policy
      (λ errno post, post = [] ∧ ex = Return (Failure ConnectError errno))
      evs)).
  - done.
  - done.
  - intros now m timeout it its evs ex _ Hshape Hex.
    inversion Hshape as [ | l Hl | l Hl | l Hl | l Hl Hpos | l Hl Hneg Hin
                         | l errno Hl Herr | l errno Hl H1 H2 H3 H4 Hin ];
      subst; try (by destruct (Hex _ _ eq_refl)).
    + done.
    + rewrite <- (app_nil_r (_ :: l)).
      apply fatal_policy_quiet; [by eapply interrupted_harmless|done].
    + change (?e :: l ++ ?t) with ((e :: l) ++ t).
      apply fatal_policy_quiet; [by eapply interrupted_harmless|]. done.
    + change (?e :: l ++ ?t) with ((e :: l) ++ t).
      apply fatal_policy_quiet; [by eapply interrupted_harmless|].
      cbn. split; [discriminate|done].
    + change (?e :: l ++ ?t) with ((e :: l) ++ t).
      apply fatal_policy_quiet; [by eapply interrupted_harmless|].
      cbn [fatal_policy]. done.
  - intros now m timeout it its evs now' m' evs' ex' _ Hshape _ IH.
    apply fatal_policy_quiet; [|done].
    inversion Hshape as [ | l Hl | l Hl | l Hl | l Hl Hpos | l Hl Hneg Hin
                         | l errno Hl Herr | l errno Hl H1 H2 H3 H4 Hin ];
      subst; change (?e :: l ++ ?t) with ((e :: l) ++ t);
      (apply Forall_app; split; [by eapply interrupted_harmless|]).
    + by repeat constructor.
    + by repeat constructor.
    + destruct Herr as [-> | ->]; by repeat constructor.
Qed.

(** X13.  A [connect()] that fails with an error number other than [EINTR],
    [ECONNREFUSED], [EACCES], [ENOENT] and [ENOTDIR] ends the call at once:
    nothing follows it but the close of the socket, and the call returns
    that error number. *)
Theorem Connect_other_errors_are_final ticks_per_ms path timeout_ms env tr out :
  Connect ticks_per_ms path timeout_ms env = (tr, out) →
  ∀ pre fd sun_path errno post,
    tr = pre ++ EvConnect fd sun_path (SysErr errno) :: post →
    retried_errno errno = false →
    post = [EvClose (socket_ret env)] ∧ out = Failure ConnectError errno.
Proof.
  intros Hrun%Connect_has_run pre fd sun_path errno post -> Hf.
  revert Hf. apply fatal_policy_split with (terminal := λ errno post,
    post = [EvClose (socket_ret env)] ∧ out = Failure ConnectError errno)
    (pre := pre) (fd := fd) (sun_path := sun_path).
  destruct Hrun as [Hv|Hv Hfill|remote time_end evs ex tail out Hv Hfill Hdl Hloop Hex];
    [done..|].
  cbn [fatal_policy]. split; [done|].
  apply connect_loop_fatal in Hloop.
  eapply fatal_policy_extend; [| |exact Hloop].
  - intros errno' l [-> Hex'].
    destruct ex as [? ?| |o|]; try discriminate. injection Hex' as ->.
    destruct Hex as [-> ->]. done.
  - apply no_loop_call_harmless. by eapply run_exit_no_loop_call.
Qed.

Lemma Connect_other_errors_are_final_witness :
  (Connect 1000000 "/x" (-1) unreachable).2 = Failure ConnectError 113.
Proof.
  pose (run := Connect 1000000 "/x" (-1) unreachable).
  pose (sun_path := default [] (fill_sun_path (remote_stack unreachable) "/x")).
  refine (proj2
    (Connect_other_errors_are_final 1000000 "/x" (-1) unreachable run.1 run.2
       (surjective_pairing _) (take 2 run.1) 3 sun_path 113 (drop 3 run.1) _ _)).
  - vm_compute. reflexivity.
  - reflexivity.
Defined.

End FatalMore.

Section BoundedBackoff.

Lemma RETRY_EINTR_decided fd remote rets :
  (RETRY_EINTR fd remote rets).2 = decided rets.
Proof.
  induction rets as [|[|errno] rets IH]; cbn [RETRY_EINTR decided]; [done..|].
  destruct (errno =? EINTR); [|done].
  by destruct (RETRY_EINTR fd remote rets).
Qed.

Lemma RETRY_EINTR_no_sleep fd remote rets :
  count is_sleep (RETRY_EINTR fd remote rets).1 = 0%nat.
Proof.
  induction rets as [|[|errno] rets IH]; cbn [RETRY_EINTR]; [done..|].
  destruct (errno =? EINTR); [|done].
  by destruct (RETRY_EINTR fd remote rets).
Qed.

(** A pass with a deadline sleeps at most once, only where the script says
    it may, and then goes round again from the clock reading of the pass. *)
Lemma attempt_sleep path remote fd timeout now m it evs ex :
  attempt path remote fd true timeout now m it = (evs, ex) →
  (∀ now' m', ex = Continue now' m' → now' = clock_after it) ∧
  (count is_sleep evs = 0%nat ∨
   count is_sleep evs = 1%nat ∧ may_sleep it = true ∧
   ∃ m', ex = Continue (clock_after it) m').
Proof.
  unfold attempt, may_sleep.
  destruct (wait_status it) as [[]|error].
  2:{ intros [= <- <-]. split; [done|by left]. }
  pose proof (RETRY_EINTR_decided fd remote (connect_rets it)) as Hd.
  pose proof (RETRY_EINTR_no_sleep fd remote (connect_rets it)) as Hn.
  destruct (RETRY_EINTR fd remote (connect_rets it)) as [evc ret].
  cbn [fst snd] in Hd, Hn. rewrite <- Hd.
  assert (count is_sleep (EvWaitForEndpoint path timeout :: evc) = 0%nat)
    as Hn' by exact Hn.
  destruct ret as [[|errno]|].
  - intros [= <- <-]. split; [done|by left].
  - destruct (errno =? ECONNREFUSED) eqn:E1.
    { intros [= <- <-]. split; [by intros ?? [= <- _]|]. right.
      rewrite app_comm_cons, count_app, Hn'. split; [done|]. split; [done|].
      by eexists. }
    destruct (errno =? EACCES) eqn:E2.
    { destruct (0 <? m).
      - intros [= <- <-]. split; [by intros ?? [= <- _]|]. right.
        rewrite app_comm_cons, count_app, Hn'. split; [done|]. split; [done|].
        by eexists.
      - destruct (negb _ && negb _); intros [= <- <-];
          (split; [by intros ?? [= <- _] || done|by left]). }
    destruct (negb _ && negb _); intros [= <- <-];
      (split; [by intros ?? [= <- _] || done|by left]).
  - intros [= <- <-]. split; [done|by left].
Qed.

(** With a deadline and a steady clock, the sleeps of the loop fit in the
    time left when it is entered, but for the last one. *)
Lemma connect_loop_backoff_bound ticks_per_ms path remote fd time_end its :
  0 < ticks_per_ms →
  ∀ now m evs ex,
    steady ticks_per_ms now its →
    connect_loop ticks_per_ms path remote fd true time_end now m its =
      (evs, ex) →
    count is_sleep evs = 0%nat ∨
    100 * ticks_per_ms * Z.of_nat (count is_sleep evs) ≤
      time_end - now + ticks_per_ms - 1 + 100 * ticks_per_ms.
Proof.
  intros Hpos.
  induction its as [|it its IH]; intros now m evs ex Hsteady;
    cbn [connect_loop].
  - destruct (remaining_timeout _ _ _ _); intros [= <- <-]; by left.
  - destruct (remaining_timeout _ _ _ _) as [timeout|] eqn:Hrem;
      [|intros [= <- <-]; by left].
    assert (- ticks_per_ms < time_end - now) as Hleft.
    { apply remaining_timeout_Some in Hrem as (Hq & -> & _).
      unfold duration_cast_ms in Hq.
      pose proof (quot_negative_iff ticks_per_ms (time_end - now) Hpos). lia. }
    destruct Hsteady as [Hclock Hsteady].
    destruct (attempt _ _ _ _ _ _ _ _) as [evs0 ex0] eqn:Hat.
    apply attempt_sleep in Hat as [Hnow Hsleep].
    destruct ex0 as [now' m'| |o|].
    + rewrite (Hnow _ _ eq_refl) in *.
      destruct (connect_loop _ _ _ _ _ _ _ _ its) as [evs' ex'] eqn:Hloop.
      intros [= <- <-]. rewrite count_app.
      specialize (IH _ _ _ _ Hsteady Hloop).
      destruct Hsleep as [->|(-> & Hmay & _)].
      * destruct IH as [->|IH]; [by left|]. right.
        destruct (may_sleep it); lia.
      * right. rewrite Hmay in Hclock.
        destruct IH as [->|IH]; lia.
    + intros [= <- <-]. destruct Hsleep as [?|(_ & _ & ? & ?)]; [by left|done].
    + intros [= <- <-]. destruct Hsleep as [?|(_ & _ & ? & ?)]; [by left|done].
    + intros [= <- <-]. destruct Hsleep as [?|(_ & _ & ? & ?)]; [by left|done].
Qed.

(** X15.  With a deadline whose arithmetic fits 64 bits and a steady clock
    (it never goes back, and a pass that sleeps takes at least the 100 ms
    of its sleep), the sleeps of a call add up to no more than [timeout_ms]
    plus one sleep. *)
Theorem Connect_backoff_bounded ticks_per_ms path timeout_ms env tr out :
  0 < ticks_per_ms →
  0 ≤ timeout_ms →
  arithmetic_fits ticks_per_ms timeout_ms env = true →
  steady ticks_per_ms (clock_start env) (iterations env) →
  Connect ticks_per_ms path timeout_ms env = (tr, out) →
  100 * Z.of_nat (count is_sleep tr) ≤ timeout_ms + 100.
Proof.
  intros Hpos Hnn _ Hsteady Hrun%Connect_has_run.
  destruct Hrun as [Hv|Hv Hfill|remote time_end evs ex tail out Hv Hfill Hdl Hloop Hex];
    [cbn; lia..|].
  pose proof (run_exit_no_loop_call _ _ _ _ Hex) as Htail.
  apply deadline_Some in Hdl as (-> & _).
  change (?e :: evs ++ tail) with ([e] ++ evs ++ tail).
  rewrite !count_app, (count_no_loop_call _ tail) by (done || by intros []).
  replace (0 <=? timeout_ms) with true in Hloop
    by (symmetry; by apply Z.leb_le).
  change (count is_sleep [EvSocket (socket_ret env)]) with 0%nat.
  destruct (connect_loop_backoff_bound _ _ _ _ _ _ Hpos _ _ _ _ Hsteady Hloop)
    as [->|Hbound]; [lia|nia].
Qed.

Lemma Connect_backoff_bounded_witness :
  100 * Z.of_nat
    (count is_sleep (Connect 1000000 "/x" 1000 refused_then_accepted).1) ≤
  1000 + 100.
Proof.
  apply (Connect_backoff_bounded 1000000 "/x" 1000 refused_then_accepted
           _ (Connect 1000000 "/x" 1000 refused_then_accepted).2).
  - lia.
  - lia.
  - reflexivity.
  - vm_compute. repeat split; discriminate.
  - apply surjective_pairing.
Defined.

End BoundedBackoff.

Section EdgesMore.

Lemma copied_empty k : copied k (c_str "") = replicate k NUL.
Proof.
  unfold copied, c_str. cbn [list_ascii_of_string app c_string].
  rewrite decide_True by done. cbn [app]. by rewrite take_replicate, Nat.min_id.
Qed.

Lemma insert_replicate_same {A} (x : A) n i : <[i:=x]> (replicate n x) = replicate n x.
Proof.
  revert i. induction n as [|n IH]; intros [|i]; cbn; [done..|].
  f_equal. apply IH.
Qed.

(** X14.  The empty name is not refused: a factory created from it has the
    empty path, and its [Connect] goes on as for any other path, waiting
    for the endpoint [""] and giving [connect()] a [sun_path] of
    terminators only. *)
Theorem Connect_empty_name ticks_per_ms timeout_ms env tr out :
  Factory.Connect ticks_per_ms (Factory.Create "") timeout_ms env = (tr, out) →
  (∀ path timeout, EvWaitForEndpoint path timeout ∈ tr → path = "") ∧
  (∀ fd sun_path ret,
     EvConnect fd sun_path ret ∈ tr →
     sun_path = replicate (length (remote_stack env)) NUL) ∧
  (∀ kind error, out = Failure kind error →
     (kind = Timeout ∧ error = ETIMEDOUT ∧ 0 ≤ timeout_ms) ∨
     (kind = ProtocolError ∧ error = EIO) ∨
     reports env error).
Proof.
  unfold Factory.Connect, Factory.Create, Factory.construct.
  cbn [Factory.endpoint_path_ GetEndpointPath]. intros HC.
  split; [|split].
  - intros path timeout Hin.
    by destruct (Connect_loop_calls _ _ _ _ _ _ _ HC Hin eq_refl)
      as (remote & _ & ?).
  - intros fd sun_path ret Hin.
    destruct (Connect_loop_calls _ _ _ _ _ _ _ HC Hin eq_refl)
      as (remote & Hfill & _ & ->).
    destruct (remote_stack env) as [|c stack] eqn:Hstack;
      [by rewrite fill_sun_path_empty in Hfill|].
    rewrite fill_sun_path_eq in Hfill by (cbn; lia).
    injection Hfill as <-. by rewrite copied_empty, insert_replicate_same.
  - intros kind error ->.
    apply Connect_error_origin in HC
      as [?|[?|(_ & _ & ?)]]; auto.
Qed.

Lemma Connect_empty_name_witness :
  default [] (fill_sun_path (remote_stack accepting) "") =
    replicate (length (remote_stack accepting)) NUL.
Proof.
  apply (proj1 (proj2 (Connect_empty_name 1000000 (-1) accepting _ _
                         (surjective_pairing _))) 3 _ SysOk).
  vm_compute. apply list_elem_of_further, list_elem_of_further.
  apply list_elem_of_here.
Defined.

(** The deadline return of the loop is taken at a clock reading at least a
    millisecond past the deadline. *)
Lemma connect_loop_timeout_is_late
    ticks_per_ms path remote fd use_timeout time_end its now m evs ex :
  0 < ticks_per_ms →
  connect_loop ticks_per_ms path remote fd use_timeout time_end now m its =
    (evs, ex) →
  ∀ error, ex = Return (Failure Timeout error) →
    ∃ reading, reading ∈ now :: (clock_after <$> its) ∧
               time_end + ticks_per_ms ≤ reading.
Proof.
  intros Hpos. revert its now m evs ex.
  apply (connect_loop_rule _ _ _ _ _ _ (λ now _ its _ ex,
    ∀ error, ex = Return (Failure Timeout error) →
      ∃ reading, reading ∈ now :: (clock_after <$> its) ∧
                 time_end + ticks_per_ms ≤ reading)).
  - intros now m its Hrem error Hex. exists now. split; [apply list_elem_of_here|].
    apply remaining_timeout_None in Hrem as [_ [[Hexit _]|(_ & _ & Hq)]];
      [rewrite Hexit in Hex; discriminate|].
    unfold duration_cast_ms in Hq.
    apply (quot_negative_iff _ _ Hpos) in Hq. lia.
  - done.
  - intros now m timeout it its evs ex _ Hshape _ error ->. inversion Hshape.
  - intros now m timeout it its evs now' m' evs' ex' Hrem Hshape Hloop IH
      error Hex.
    assert (use_timeout = true) as Hu.
    { by apply (connect_loop_waits _ _ _ _ _ _ _ _ _ _ _ Hloop) in Hex. }
    assert (now' = clock_after it) as ->.
    { rewrite Hu in Hshape. by inversion Hshape. }
    destruct (IH _ Hex) as (reading & Hin & Hlate).
    exists reading. split; [|done]. cbn [fmap list_fmap].
    by apply list_elem_of_further.
Qed.

(** X16.  Where the arithmetic of the deadline fits 64 bits, [Connect] does
    not time out early: when it returns through its deadline check, a
    deadline was given and one of the clock readings of the call was at
    least one millisecond past it. *)
Theorem Connect_timeout_is_late ticks_per_ms path timeout_ms env tr error :
  0 < ticks_per_ms →
  arithmetic_fits ticks_per_ms timeout_ms env = true →
  Connect ticks_per_ms path timeout_ms env = (tr, Failure Timeout error) →
  error = ETIMEDOUT ∧ 0 ≤ timeout_ms ∧
  ∃ reading,
    reading ∈ (clock_after <$> iterations env) ∧
    clock_start env + (timeout_ms + 1) * ticks_per_ms ≤ reading.
Proof.
  intros Hpos _ HC.
  pose proof (Connect_error_origin _ _ _ _ _ _ _ HC)
    as [(_ & -> & Hnn)|[(? & _)|(? & _)]]; [|done..].
  split; [done|]. split; [done|].
  apply Connect_has_run in HC.
  inversion HC as [Hv|Hv Hfill|remote time_end evs ex tail out Hv Hfill Hdl Hloop Hex];
    subst.
  apply deadline_Some in Hdl as (-> & _).
  destruct ex as [? ?| |o|].
  - by destruct Hex.
  - destruct Hex as [_ Hout]. symmetry in Hout.
    by apply handshake_kind in Hout as [?|[? _]].
  - apply run_exit_return in Hex as [<- _].
    destruct (connect_loop_timeout_is_late _ _ _ _ _ _ _ _ _ _ _ Hpos Hloop
                _ eq_refl) as (reading & Hin & Hlate).
    apply elem_of_cons in Hin as [->|Hin]; [nia|].
    exists reading. split; [done|]. lia.
  - by destruct Hex.
Qed.

Lemma Connect_timeout_is_late_witness :
  ∃ reading,
    reading ∈ (clock_after <$> iterations refused_then_accepted) ∧
    0 + (50 + 1) * 1000000 ≤ reading.
Proof.
  exact (proj2 (proj2
    (Connect_timeout_is_late 1000000 "/x" 50 refused_then_accepted
       (Connect 1000000 "/x" 50 refused_then_accepted).1 ETIMEDOUT
       ltac:(lia) eq_refl eq_refl))).
Defined.

End EdgesMore.
